(** * docstring_checks: Sphinx docstring checks ([sphinx_content.py])

    A shallow embedding of the checker and the proofs of its specified
    properties.

    Python strings are lists of characters ([str]); a character is a code
    point below 256 ([ascii]).  The patterns of the program are kept as the
    pattern texts the source builds ([regexes], the joins and the
    f-strings); they are compiled by [re_compile], a model of the fragment of
    Python's [re] the program uses, and run by a backtracking matcher that
    lists the successes in the order the [re] engine tries them. *)

From Stdlib Require Import Ascii String DecimalString.
From Stdlib Require Import List Arith Lia Bool Permutation Sorted.
From Equations Require Import Equations.
Import ListNotations.

Set Warnings "-register-all".
Open Scope string_scope.
Open Scope nat_scope.
Open Scope list_scope.

(* ===================================================================== *)
(** * Part I: definitions                                                 *)
(* ===================================================================== *)

(** ** Strings *)

Definition str := list ascii.

(** A Python string literal. *)
Definition py (s : string) : str := list_ascii_of_string s.
Arguments py : simpl never.

(** The newline character. *)
Definition nl : ascii := "010"%char.

Definition nat_code (c : ascii) : nat := nat_of_ascii c.

(** [str.isspace] on one character, which is also the class [\s] of [re] on
    [str] patterns: TAB, LF, VT, FF, CR, the separators 28 to 31, the space,
    NEL (133) and the no-break space (160). *)
Definition is_space (c : ascii) : bool :=
  let n := nat_code c in
  ((9 <=? n) && (n <=? 13)) || ((28 <=? n) && (n <=? 32))
  || (n =? 133) || (n =? 160).

Definition ascii_eqb (a b : ascii) : bool := Ascii.eqb a b.
Arguments ascii_eqb : simpl never.

(** [a.startswith(p)] *)
Fixpoint startswith (p s : str) : bool :=
  match p, s with
  | [], _ => true
  | a :: p', b :: s' => ascii_eqb a b && startswith p' s'
  | _ :: _, [] => false
  end.

(** [s.lstrip()], [s.rstrip()] and [s.strip()] *)
Fixpoint lstrip (s : str) : str :=
  match s with
  | c :: s' => if is_space c then lstrip s' else s
  | [] => []
  end.

Definition rstrip (s : str) : str := rev (lstrip (rev s)).

Definition strip (s : str) : str := rstrip (lstrip s).

(** [s.split(sep)] for a one-character separator: the pieces between the
    separators, always at least one piece. *)
Fixpoint split_on (sep : ascii) (s : str) : list str :=
  match s with
  | [] => [[]]
  | c :: s' =>
      if ascii_eqb c sep then [] :: split_on sep s'
      else match split_on sep s' with
           | piece :: pieces => (c :: piece) :: pieces
           | [] => [[c]]
           end
  end.

(** [sep.join(l)] *)
Fixpoint str_join (sep : str) (l : list str) : str :=
  match l with
  | [] => []
  | [x] => x
  | x :: l' => x ++ sep ++ str_join sep l'
  end.

(** [str(n)] for a non-negative integer. *)
Definition str_of_nat (n : nat) : str :=
  py (NilEmpty.string_of_uint (Nat.to_uint n)).

(** A text given by its lines. *)
Definition text (lines : list string) : str := str_join [nl] (map py lines).

(** ** The [re] fragment *)

(** One-character items of a pattern. *)
Inductive cset : Type :=
| CChar (c : ascii)   (* a literal character *)
| CDot                (* [.] : anything but a newline *)
| CSpace              (* [\s] *)
| CNotSpace.          (* [\S] *)

Definition cset_mem (cs : cset) (c : ascii) : bool :=
  match cs with
  | CChar a => ascii_eqb a c
  | CDot => negb (ascii_eqb c nl)
  | CSpace => is_space c
  | CNotSpace => negb (is_space c)
  end.

(** Patterns.  The program only repeats one-character items. *)
Inductive regex : Type :=
| REps
| RChr (cs : cset)
| RStar (cs : cset)              (* greedy [x*] *)
| RPlus (cs : cset)              (* greedy [x+] *)
| REol (multiline : bool)        (* [$] *)
| RSeq (a b : regex)
| RAlt (a b : regex)
| RFail.                         (* a pattern that did not compile *)

Inductive token : Type :=
| TChr (cs : cset) | TStar | TPlus | TBar | TEol | TOpen | TClose.

Definition is_alnum (c : ascii) : bool :=
  let n := nat_code c in
  ((48 <=? n) && (n <=? 57)) || ((65 <=? n) && (n <=? 90))
  || ((97 <=? n) && (n <=? 122)).

(** The lexer: escapes, the special characters and [(?:].  Constructs the
    program does not use (capturing groups, brackets, [?], [^], braces) are
    refused. *)
Fixpoint lex (p : str) : option (list token) :=
  match p with
  | [] => Some []
  | "\"%char :: c :: p' =>
      let item :=
        if ascii_eqb c "s" then Some CSpace
        else if ascii_eqb c "S" then Some CNotSpace
        else if is_alnum c then None
        else Some (CChar c) in
      match item, lex p' with
      | Some cs, Some ts => Some (TChr cs :: ts)
      | _, _ => None
      end
  | "("%char :: "?"%char :: ":"%char :: p' =>
      option_map (cons TOpen) (lex p')
  | c :: p' =>
      let tok :=
        if ascii_eqb c "." then Some (TChr CDot)
        else if ascii_eqb c "*" then Some TStar
        else if ascii_eqb c "+" then Some TPlus
        else if ascii_eqb c "|" then Some TBar
        else if ascii_eqb c "$" then Some TEol
        else if ascii_eqb c ")" then Some TClose
        else if existsb (ascii_eqb c) (py "\(?[]{}^") then None
        else Some (TChr (CChar c)) in
      match tok, lex p' with
      | Some t, Some ts => Some (t :: ts)
      | _, _ => None
      end
  end.

Fixpoint mk_seq (items : list regex) : regex :=
  match items with
  | [] => REps
  | [x] => x
  | x :: items' => RSeq x (mk_seq items')
  end.

Fixpoint mk_alt (branches : list regex) : regex :=
  match branches with
  | [] => REps
  | [x] => x
  | x :: branches' => RAlt x (mk_alt branches')
  end.

(** An open group while parsing: the finished branches and the items of the
    current branch, both latest first. *)
Record frame : Type := Frame { branches : list regex; items : list regex }.

Definition push_item (r : regex) (f : frame) : frame :=
  Frame (branches f) (r :: items f).

Definition close_frame (f : frame) : regex :=
  mk_alt (rev (mk_seq (rev (items f)) :: branches f)).

Fixpoint parse (multiline : bool) (ts : list token) (top : frame)
    (stack : list frame) : option regex :=
  match ts with
  | [] => match stack with [] => Some (close_frame top) | _ :: _ => None end
  | t :: ts' =>
      match t with
      | TChr cs => parse multiline ts' (push_item (RChr cs) top) stack
      | TEol => parse multiline ts' (push_item (REol multiline) top) stack
      | TStar =>
          match items top with
          | RChr cs :: rest =>
              parse multiline ts' (Frame (branches top) (RStar cs :: rest)) stack
          | _ => None
          end
      | TPlus =>
          match items top with
          | RChr cs :: rest =>
              parse multiline ts' (Frame (branches top) (RPlus cs :: rest)) stack
          | _ => None
          end
      | TBar =>
          parse multiline ts'
            (Frame (mk_seq (rev (items top)) :: branches top) []) stack
      | TOpen => parse multiline ts' (Frame [] []) (top :: stack)
      | TClose =>
          match stack with
          | parent :: stack' =>
              parse multiline ts' (push_item (close_frame top) parent) stack'
          | [] => None
          end
      end
  end.

(** [re.compile(pattern, flags)], [flags] being [re.M] or nothing. *)
Definition re_compile (pattern : str) (multiline : bool) : regex :=
  match lex pattern with
  | Some ts =>
      match parse multiline ts (Frame [] []) [] with
      | Some r => r
      | None => RFail
      end
  | None => RFail
  end.

(** [$]: with [re.M] at the end of the text and before every newline; without
    it at the end of the text and before a newline that ends the text. *)
Definition at_eol (multiline : bool) (s : str) : bool :=
  match s with
  | [] => true
  | c :: s' =>
      ascii_eqb c nl && (multiline || match s' with [] => true | _ => false end)
  end.

(** The ways [x*] can consume a prefix of [s], the longest one first. *)
Fixpoint star_runs (cs : cset) (s : str) : list (str * str) :=
  match s with
  | c :: s' =>
      if cset_mem cs c
      then map (fun mr => (c :: fst mr, snd mr)) (star_runs cs s') ++ [([], s)]
      else [([], s)]
  | [] => [([], [])]
  end.

(** The backtracking matcher: every way the pattern matches a prefix of [s],
    as (matched text, rest), in the order the engine tries them. *)
Fixpoint ms (r : regex) (s : str) : list (str * str) :=
  match r with
  | REps => [([], s)]
  | RChr cs =>
      match s with
      | c :: s' => if cset_mem cs c then [([c], s')] else []
      | [] => []
      end
  | RStar cs => star_runs cs s
  | RPlus cs =>
      match s with
      | c :: s' =>
          if cset_mem cs c
          then map (fun mr => (c :: fst mr, snd mr)) (star_runs cs s')
          else []
      | [] => []
      end
  | REol multiline => if at_eol multiline s then [([], s)] else []
  | RSeq a b =>
      flat_map (fun mr1 =>
                  map (fun mr2 => (fst mr1 ++ fst mr2, snd mr2))
                      (ms b (snd mr1)))
               (ms a s)
  | RAlt a b => ms a s ++ ms b s
  | RFail => []
  end.

(** The match the engine reports at the start of [s]. *)
Definition match_at (r : regex) (s : str) : option (str * str) :=
  hd_error (ms r s).

(** The left-to-right scan of [finditer]: [skip] characters still belong to
    the last match; [off] is the offset of [s] in the whole text.  After a
    match the scan resumes where the match ended (one character further when
    the match was empty). *)
Fixpoint scan (r : regex) (s : str) (skip off : nat) : list (nat * str) :=
  match skip with
  | S k =>
      match s with
      | [] => []
      | _ :: s' => scan r s' k (S off)
      end
  | 0 =>
      match match_at r s with
      | Some (m, _) =>
          (off, m) :: match s with
                      | [] => []
                      | _ :: s' => scan r s' (pred (length m)) (S off)
                      end
      | None =>
          match s with
          | [] => []
          | _ :: s' => scan r s' 0 (S off)
          end
      end
  end.

(** The matches with their start offsets. *)
Definition finditer (r : regex) (s : str) : list (nat * str) := scan r s 0 0.

(** [re.findall(pattern, s, flags)] for a pattern without capturing groups. *)
Definition re_findall (pattern : str) (multiline : bool) (s : str) : list str :=
  map snd (finditer (re_compile pattern multiline) s).

(** [bool(re.match(pattern, s))] *)
Definition re_match (pattern : str) (s : str) : bool :=
  match match_at (re_compile pattern false) s with
  | Some _ => true
  | None => false
  end.

(** ** The syntax tree handed over by [ast.parse] *)

(** The class of a node; the program tells apart the four classes that
    [ast.get_docstring] accepts. *)
Inductive node_class : Type :=
| Module | FunctionDef | AsyncFunctionDef | ClassDef
| OtherNode (cls : string).

(** A node: its class, its [name] and [lineno] attributes when the class has
    them, the cleaned text of its leading string statement when there is one
    (what [ast.get_docstring] returns on a class that may carry one), and its
    child nodes in the order of [ast.iter_child_nodes]. *)
Inductive ast_node : Type :=
| AstNode (cls : node_class) (name_attr : option str)
    (lineno_attr : option nat) (doc_attr : option str)
    (children : list ast_node).

Definition node_cls (n : ast_node) : node_class :=
  match n with AstNode c _ _ _ _ => c end.
Definition node_name (n : ast_node) : option str :=
  match n with AstNode _ x _ _ _ => x end.
Definition node_lineno (n : ast_node) : option nat :=
  match n with AstNode _ _ l _ _ => l end.
Definition node_doc (n : ast_node) : option str :=
  match n with AstNode _ _ _ d _ => d end.
Definition node_children (n : ast_node) : list ast_node :=
  match n with AstNode _ _ _ _ cs => cs end.

Fixpoint node_size (n : ast_node) : nat :=
  match n with
  | AstNode _ _ _ _ cs => S (list_sum (map node_size cs))
  end.

Definition forest_size (l : list ast_node) : nat := list_sum (map node_size l).

(** [ast.walk]: the loop takes the first node of the queue, queues its
    children behind the others and yields it (breadth first). *)
Equations? walk_queue (todo : list ast_node) : list ast_node
  by wf (forest_size todo) lt :=
  walk_queue [] := [];
  walk_queue (n :: todo') := n :: walk_queue (todo' ++ node_children n).
Proof.
  unfold forest_size. rewrite map_app, list_sum_app.
  destruct n as [c x l d cs]. simpl. lia.
Qed.

Definition ast_walk (module : ast_node) : list ast_node := walk_queue [module].

(** Python exceptions the program can meet. *)
Inductive exn : Type := TypeError | ValueError | AttributeError.

Inductive res (A : Type) : Type :=
| Ok (a : A)
| Raise (e : exn).
Arguments Ok {A} a.
Arguments Raise {A} e.

Definition bind {A B : Type} (x : res A) (f : A -> res B) : res B :=
  match x with
  | Ok a => f a
  | Raise e => Raise e
  end.

Notation "x <- c1 ;; c2" := (bind c1 (fun x => c2))
  (at level 61, c1 at next level, right associativity).

(** [ast.get_docstring(node)]: [TypeError] on a class that cannot carry a
    documentation string. *)
Definition ast_get_docstring (n : ast_node) : res (option str) :=
  match node_cls n with
  | Module | FunctionDef | AsyncFunctionDef | ClassDef => Ok (node_doc n)
  | OtherNode _ => Raise TypeError
  end.

(** Attribute access: [AttributeError] when the node has no such attribute. *)
Definition getattr {A : Type} (attr : option A) : res A :=
  match attr with
  | Some v => Ok v
  | None => Raise AttributeError
  end.

(** ** [class ParseFunctionDef] *)

(** [regexes]: the dict, in insertion order. *)
Definition regexes : list (string * str) :=
  [ ("param", py ":param .*:");
    ("type", py ":type \S+:");
    ("meta", py ":meta \S+:");
    ("raises", py ":raises .*:");
    ("returns", py ":returns:");
    ("rtype", py ":rtype:");
    ("yield", py ":yield:") ].

(** [regexes.values()] *)
Definition regexes_values : list str := map snd regexes.

(** [regexes[name]] *)
Fixpoint dict_get (name : string) (d : list (string * str)) : option str :=
  match d with
  | [] => None
  | (k, v) :: d' => if String.eqb k name then Some v else dict_get name d'
  end.

(** The object: [function_def], [errors] and [path]. *)
Record ParseFunctionDef : Type := Build_ParseFunctionDef {
  function_def : ast_node;
  errors : list str;
  path : str
}.

(** [__init__] *)
Definition init (function_def : ast_node) (path : str) : ParseFunctionDef :=
  Build_ParseFunctionDef function_def [] path.

(** [self.errors += l] and [self.errors.append(x)] *)
Definition add_errors (self : ParseFunctionDef) (l : list str) : ParseFunctionDef :=
  Build_ParseFunctionDef (function_def self) (errors self ++ l) (path self).

Definition docstring (self : ParseFunctionDef) : option str :=
  match ast_get_docstring (function_def self) with
  | Ok d => d
  | Raise _ => None
  end.

Definition name (self : ParseFunctionDef) : str :=
  match getattr (node_name (function_def self)) with
  | Ok x => x
  | Raise _ => []
  end.

Definition lineno (self : ParseFunctionDef) : nat :=
  match getattr (node_lineno (function_def self)) with
  | Ok l => l
  | Raise _ => 0
  end.

(** What [print(x)] writes. *)
Definition print (x : str) : str := x ++ [nl].

(** [print_errors]: the text written to standard output. *)
Definition print_errors (self : ParseFunctionDef) : str :=
  match errors self with
  | [] => []
  | _ :: _ =>
      print (py "*** " ++ path self ++ py ":" ++ name self ++ py ":"
             ++ str_of_nat (lineno self))
      ++ print (str_join [nl] (errors self))
      ++ print []
  end.

(** [re.findall(pattern, self.docstring(), flags)]: [TypeError] when the
    documentation string is [None]. *)
Definition findall_docstring (pattern : str) (multiline : bool)
    (self : ParseFunctionDef) : res (list str) :=
  match docstring self with
  | Some d => Ok (re_findall pattern multiline d)
  | None => Raise TypeError
  end.

Definition check_defaults (self : ParseFunctionDef) : res ParseFunctionDef :=
  e1 <- findall_docstring (py "\[summary\]") false self ;;
  e2 <- findall_docstring (py ":.*: *\[description\]") false self ;;
  e3 <- findall_docstring (py ":.*: *\[type\]") false self ;;
  let errs := e1 ++ e2 ++ e3 in
  match errs with
  | [] => Ok self
  | _ :: _ =>
      Ok (add_errors self (map (fun x => py "default-docstring-error: " ++ x) errs))
  end.

(** The pattern [check_newlines] builds. *)
Definition newlines_pattern : str :=
  let line_regex :=
    str_join (py "|") (map (fun x => x ++ py ".*") regexes_values) in
  py ".*" ++ [nl] ++ py "(?:" ++ line_regex ++ py ")".

Definition check_newlines (self : ParseFunctionDef) : res ParseFunctionDef :=
  matches <- findall_docstring newlines_pattern true self ;;
  match matches with
  | [] => Ok self
  | m0 :: _ =>
      match split_on nl m0 with
      | [prev_line; sphinx_line] =>
          match strip prev_line with
          | _ :: _ =>
              Ok (add_errors self
                    [py "missing-newline-error: '" ++ sphinx_line
                     ++ py "' needs newline before"])
          | [] => Ok self
          end
      | _ => Raise ValueError
      end
  end.

Definition cehck_empty_docstring (self : ParseFunctionDef) : res ParseFunctionDef :=
  match docstring self with
  | None => Raise AttributeError
  | Some d =>
      match strip d with
      | [] => Ok (add_errors self [py "empty-docstring-error: no docstring content"])
      | _ :: _ => Ok self
      end
  end.

(** The pattern [check_empty_fields] builds. *)
Definition empty_fields_pattern : str :=
  str_join (py "|") (map (fun x => x ++ py "\s*$") regexes_values).

Definition check_empty_fields (self : ParseFunctionDef) : res ParseFunctionDef :=
  matches <- findall_docstring empty_fields_pattern true self ;;
  match matches with
  | [] => Ok self
  | _ :: _ =>
      Ok (add_errors self
            (map (fun line => py "missing-description-error: " ++ line)
                 (filter (fun line => negb (startswith (py ":meta") line))
                         matches)))
  end.

(** What a call returns: [None] or an integer. *)
Inductive pyval : Type := PyNone | PyInt (n : nat).

(** Truth value of a returned value. *)
Definition truthy (v : pyval) : bool :=
  match v with
  | PyNone => false
  | PyInt 0 => false
  | PyInt (S _) => true
  end.

(** [run_checks]: the returned value, the object afterwards and the text
    written to standard output. *)
Definition run_checks (self : ParseFunctionDef)
  : res (pyval * ParseFunctionDef * str) :=
  match docstring self with
  | None => Ok (PyNone, self, [])
  | Some _ =>
      s1 <- check_defaults self ;;
      s2 <- cehck_empty_docstring s1 ;;
      s3 <- check_empty_fields s2 ;;
      s4 <- check_newlines s3 ;;
      Ok (PyInt (length (errors s4)), s4, print_errors s4)
  end.

(** ** The module functions *)

(** Stable insertion by key, the result of [list.sort(key=...)]. *)
Fixpoint insert_by {A : Type} (key : A -> nat) (x : A) (l : list A) : list A :=
  match l with
  | [] => [x]
  | y :: l' => if key x <=? key y then x :: l else y :: insert_by key x l'
  end.

Definition sort_by {A : Type} (key : A -> nat) (l : list A) : list A :=
  fold_right (insert_by key) [] l.

(** [function_definitions(fpath)], [module] being [ast.parse(fpath.read_text())]. *)
Definition function_definitions (fpath : str) (module : ast_node)
  : list ParseFunctionDef :=
  let functions := map (fun x => init x fpath) (ast_walk module) in
  sort_by lineno functions.

(** [[x.run_checks() for x in records]]: the returned values and the text
    written, in order. *)
Fixpoint run_all (records : list ParseFunctionDef) : res (list pyval * str) :=
  match records with
  | [] => Ok ([], [])
  | x :: records' =>
      r <- run_checks x ;;
      rest <- run_all records' ;;
      Ok (fst (fst r) :: fst rest, snd r ++ snd rest)
  end.

(** [check_docstrings(fpath)]: the returned boolean and the text written. *)
Definition check_docstrings (fpath : str) (module : ast_node) : res (bool * str) :=
  let out := print (py "INFO: Checking file " ++ fpath) in
  r <- run_all (function_definitions fpath module) ;;
  Ok (existsb truthy (fst r), out ++ snd r).

(** A command-line path as [main] sees it: a file with the tree [ast.parse]
    gives for it, or a directory with the files [glob("**/*.py")] finds. *)
Inductive cli_path : Type :=
| PyFile (fname : str) (module : ast_node)
| PyDir (found : list (str * ast_node)).

Definition paths_of (p : cli_path) : list (str * ast_node) :=
  match p with
  | PyFile fname module => [(fname, module)]
  | PyDir found => found
  end.

(** The inner loop of [main]: [errors += check_docstrings(fname)]. *)
Fixpoint main_files (fs : list (str * ast_node)) (errors : nat) (out : str)
  : res (nat * str) :=
  match fs with
  | [] => Ok (errors, out)
  | (fname, module) :: fs' =>
      r <- check_docstrings fname module ;;
      main_files fs' (errors + (if fst r then 1 else 0)) (out ++ snd r)
  end.

(** The outer loop of [main]. *)
Fixpoint main_paths (ps : list cli_path) (errors : nat) (out : str)
  : res (nat * str) :=
  match ps with
  | [] => Ok (errors, out)
  | p :: ps' =>
      r <- main_files (paths_of p) errors out ;;
      main_paths ps' (fst r) (snd r)
  end.

(** [main()], [opts_path] being [opts.path]: the exit status and the text
    written to standard output. *)
Definition main (opts_path : list cli_path) : res (nat * str) :=
  r <- main_paths opts_path 0 [] ;;
  match fst r with
  | S _ => Ok (1, snd r)
  | 0 => Ok (0, snd r)
  end.

(** ** Notions used in the statements *)

(** The classes the word "definition" covers. *)
Definition is_definition (c : node_class) : bool :=
  match c with
  | FunctionDef | AsyncFunctionDef | ClassDef => true
  | Module | OtherNode _ => false
  end.

(** Every node of a tree, the root first. *)
Fixpoint nodes_of (n : ast_node) : list ast_node :=
  n :: match n with
       | AstNode _ _ _ _ cs => flat_map nodes_of cs
       end.

(** A text without a newline: one line. *)
Definition one_line (s : str) : Prop := ~ In nl s.

(** The four categories of diagnostics. *)
Definition categories : list str :=
  [ py "default-docstring-error"; py "empty-docstring-error";
    py "missing-description-error"; py "missing-newline-error" ].

Definition has_category (diagnostic : str) : Prop :=
  exists c, In c categories /\ startswith c diagnostic = true.

(** What a pattern matches, read off the pattern: [den r m rest] says that
    [r] can match the text [m] when [rest] follows it. *)
Fixpoint den (r : regex) (m rest : str) : Prop :=
  match r with
  | REps => m = []
  | RChr cs => exists c, m = [c] /\ cset_mem cs c = true
  | RStar cs => Forall (fun c => cset_mem cs c = true) m
  | RPlus cs => m <> [] /\ Forall (fun c => cset_mem cs c = true) m
  | REol multiline => m = [] /\ at_eol multiline rest = true
  | RSeq a b =>
      exists m1 m2, m = m1 ++ m2 /\ den a m1 (m2 ++ rest) /\ den b m2 rest
  | RAlt a b => den a m rest \/ den b m rest
  | RFail => False
  end.

(** Patterns that stay on one line: no item accepts a newline and there is no
    [$]. *)
Definition cset_no_nl (cs : cset) : bool := negb (cset_mem cs nl).

Fixpoint line_local (r : regex) : bool :=
  match r with
  | REps | RFail => true
  | RChr cs | RStar cs | RPlus cs => cset_no_nl cs
  | REol _ => false
  | RSeq a b | RAlt a b => line_local a && line_local b
  end.

(** [rapp a b] is the pattern text of [a] followed by the pattern text of
    [b], [a] being a sequence of items. *)
Fixpoint rapp (a b : regex) : regex :=
  match a with
  | RSeq x a' => RSeq x (rapp a' b)
  | _ => RSeq a b
  end.

(** The literal text every match of a pattern starts with. *)
Fixpoint lit_prefix (r : regex) : str :=
  match r with
  | RChr (CChar c) => [c]
  | RSeq (RChr (CChar c)) b => c :: lit_prefix b
  | _ => []
  end.

(** Patterns whose every match holds a character that is not white space. *)
Definition cset_nonspace (cs : cset) : bool :=
  match cs with
  | CChar c => negb (is_space c)
  | CNotSpace => true
  | CDot | CSpace => false
  end.

Fixpoint needs_nonspace (r : regex) : bool :=
  match r with
  | RChr cs | RPlus cs => cset_nonspace cs
  | RSeq a b => needs_nonspace a || needs_nonspace b
  | RAlt a b => needs_nonspace a && needs_nonspace b
  | RFail => true
  | REps | RStar _ | REol _ => false
  end.

(** The compiled patterns of the program. *)
Definition tag_regex (pattern : str) : regex := re_compile pattern false.

Definition summary_regex : regex := re_compile (py "\[summary\]") false.
Definition description_regex : regex := re_compile (py ":.*: *\[description\]") false.
Definition type_regex : regex := re_compile (py ":.*: *\[type\]") false.
Definition newlines_regex : regex := re_compile newlines_pattern true.
Definition empty_fields_regex : regex := re_compile empty_fields_pattern true.

(** The branches of the two joined patterns, one per entry of [regexes]. *)
Definition field_line_regexes : list regex :=
  map (fun x => rapp (tag_regex x) (RStar CDot)) regexes_values.


(** The diagnostics of each rule as functions of the documentation text. *)
Definition defaults_diags (d : str) : list str :=
  map (fun x => py "default-docstring-error: " ++ x)
      (re_findall (py "\[summary\]") false d
       ++ re_findall (py ":.*: *\[description\]") false d
       ++ re_findall (py ":.*: *\[type\]") false d).

Definition empty_docstring_diags (d : str) : list str :=
  match strip d with
  | [] => [py "empty-docstring-error: no docstring content"]
  | _ :: _ => []
  end.

Definition empty_fields_diags (d : str) : list str :=
  map (fun line => py "missing-description-error: " ++ line)
      (filter (fun line => negb (startswith (py ":meta") line))
              (re_findall empty_fields_pattern true d)).

Definition newlines_diags (d : str) : list str :=
  match re_findall newlines_pattern true d with
  | [] => []
  | m0 :: _ =>
      match split_on nl m0 with
      | [prev_line; sphinx_line] =>
          match strip prev_line with
          | _ :: _ => [py "missing-newline-error: '" ++ sphinx_line
                       ++ py "' needs newline before"]
          | [] => []
          end
      | _ => []
      end
  end.

Definition all_diags (d : str) : list str :=
  defaults_diags d ++ empty_docstring_diags d ++ empty_fields_diags d
  ++ newlines_diags d.

(** The four rules, in the order [run_checks] calls them. *)
Definition rules : list (ParseFunctionDef -> res ParseFunctionDef) :=
  [check_defaults; cehck_empty_docstring; check_empty_fields; check_newlines].

(** [self'] is [self] with the diagnostics [added] appended. *)
Definition appended (self self' : ParseFunctionDef) (added : list str) : Prop :=
  function_def self' = function_def self /\ path self' = path self /\
  errors self' = errors self ++ added.

(** White-space-only text. *)
Definition blank (s : str) : Prop := Forall (fun c => is_space c = true) s.

(** ** Inputs of the examples *)

(** [def run(self): ...] of the fixture: a function without a documentation
    string. *)
Definition undocumented_function : ParseFunctionDef :=
  init (AstNode FunctionDef (Some (py "run")) (Some 19) None []) (py "sample_file.py").

(** A function whose documentation string is [d]. *)
Definition documented (d : str) : ParseFunctionDef :=
  init (AstNode FunctionDef (Some (py "f")) (Some 1) (Some d) []) (py "a.py").

(** Each rule with the function of the text that gives its diagnostics. *)
Definition rules_with_diags
  : list ((ParseFunctionDef -> res ParseFunctionDef) * (str -> list str)) :=
  [ (check_defaults, defaults_diags);
    (cehck_empty_docstring, empty_docstring_diags);
    (check_empty_fields, empty_fields_diags);
    (check_newlines, newlines_diags) ].

(** The fixture's first lines as a tree: the module, [def func():] on line 6
    and its body statement on line 7. *)
Definition small_module : ast_node :=
  AstNode Module None None (Some (py "This is a sample file"))
    [ AstNode FunctionDef (Some (py "func")) (Some 6) (Some (py "Docstring Title."))
        [ AstNode (OtherNode "Expr") None (Some 7) None [] ] ].

(** The diagnostics one object ends with, and those of a whole file. *)
Definition record_diagnostics (x : ParseFunctionDef) : list str :=
  match run_checks x with
  | Ok (_, x', _) => errors x'
  | Raise _ => []
  end.

Definition file_diagnostics (fpath : str) (module : ast_node) : list str :=
  flat_map record_diagnostics (function_definitions fpath module).

Definition is_empty {A : Type} (l : list A) : bool :=
  match l with [] => true | _ :: _ => false end.

(** The files an invocation checks, in order. *)
Definition files_of (opts_path : list cli_path) : list (str * ast_node) :=
  flat_map paths_of opts_path.

(** No file of the invocation has a diagnostic. *)
Definition all_clean (opts_path : list cli_path) : bool :=
  forallb (fun fm => is_empty (file_diagnostics (fst fm) (snd fm)))
          (files_of opts_path).

(** A documentation text whose empty [:param] field is indented. *)
Definition indented_field_doc : str :=
  text ["Title"; ""; "text"; ""; "  :param x:"].

(** The fixture's [default_yield] field line: text follows the placeholder. *)
Definition yield_placeholder_doc : str :=
  text ["Testing the default yield description is caught."; "";
        ":yield: [description] but other stuff here."].

(** The pattern when it is the text of a literal. *)
Fixpoint literal_of (r : regex) : option str :=
  match r with
  | RChr (CChar c) => Some [c]
  | RSeq (RChr (CChar c)) b => option_map (cons c) (literal_of b)
  | _ => None
  end.

(** The offsets at which [lit] occurs in [s], [off] being the offset of [s]. *)
Fixpoint occurrences (lit s : str) (off : nat) : list nat :=
  (if startswith lit s then [off] else [])
  ++ match s with
     | [] => []
     | _ :: s' => occurrences lit s' (S off)
     end.

(** [m] stands in [d] at offset [p]. *)
Definition occurs_at (m : str) (p : nat) (d : str) : Prop :=
  exists before after, d = before ++ m ++ after /\ length before = p.

(** The placeholder patterns of [check_defaults] with their placeholders. *)
Definition placeholder_regexes : list (str * regex) :=
  [ (py "[description]", description_regex); (py "[type]", type_regex) ].

(** The matches of the three patterns of [check_defaults], in the order of the
    diagnostics. *)
Definition defaults_matches (d : str) : list (nat * str) :=
  finditer summary_regex d ++ finditer description_regex d
  ++ finditer type_regex d.

(** A line opens a field when a pattern of the table matches at its first
    column ([re.match], as in the test table). *)
Definition opens_field (line : str) : bool :=
  existsb (fun x => re_match x line) regexes_values.

(** The first two consecutive lines whose second line opens a field. *)
Fixpoint first_field_pair (lines : list str) : option (str * str) :=
  match lines with
  | prev :: (line :: _) as lines' =>
      if opens_field line then Some (prev, line) else first_field_pair lines'
  | _ => None
  end.

(** The missing-newline rule, told line by line: look at the first such pair
    only and report its field line when the line before is not blank. *)
Definition newline_rule (d : str) : list str :=
  match first_field_pair (split_on nl d) with
  | Some (prev, line) =>
      match strip prev with
      | _ :: _ => [py "missing-newline-error: '" ++ line
                   ++ py "' needs newline before"]
      | [] => []
      end
  | None => []
  end.

(** A documentation text that starts with a field line. *)
Definition field_first_doc : str := text [":returns: a"; ":rtype: b"].






(** The parametrized cases of [test_regexes]: name, line, expected. *)
Definition test_regexes_table : list (string * string * bool) :=
  [ ("param", ":param name: description", true);
    ("param", "   :param name: description", false);
    ("param", ":param (int) name: description", true);
    ("param", ":param (int or str) name: description", true);
    ("param", "  :param with never ending", false);
    ("type", ":type name: description", true);
    ("type", "   :type name: description", false);
    ("type", ":type name: int or something", true);
    ("type", ":type (int or str) name: description", false);
    ("type", "  :type with never ending", false);
    ("meta", ":meta name: description", true);
    ("meta", "   :meta name: description", false);
    ("meta", ":meta name: int or something", true);
    ("meta", ":meta (int or str) name: description", false);
    ("meta", "  :meta with never ending", false);
    ("returns", ":returns:", true);
    ("returns", ":returns:    ", true);
    ("returns", ":returns:   Description ", true);
    ("returns", ":returns  [description] ", false);
    ("raises", ":raises Exception:", true);
    ("raises", ":raises Exception, OtherExc:    ", true);
    ("raises", ":raises:   Description ", false);
    ("raises", ":raises  Exception ", false);
    ("yield", ":yield:", true);
    ("yield", ":yield:    ", true);
    ("yield", ":yield:   Description ", true);
    ("yield", ":yield  [description] ", false);
    ("yield", ":yield  [description] :", false);
    ("rtype", ":rtype:", true);
    ("rtype", ":rtype:    ", true);
    ("rtype", ":rtype:   Description ", true);
    ("rtype", ":rtype  [description]", false);
    ("rtype", ":rtype  [description] :", false) ].

(** The file has a diagnostic. *)
Definition has_diagnostics (fm : str * ast_node) : bool :=
  negb (is_empty (file_diagnostics (fst fm) (snd fm))).

(** A diagnostic of the category [c]. *)
Definition in_category (c : string) (diagnostic : str) : Prop :=
  startswith (py c) diagnostic = true.

(** The documentation text of the fixture's [multi_fail]. *)
Definition multi_fail_doc : str := text ["[summary]"; ":returns: something"].

(** The pattern text [lit] (a literal) followed by the pattern [r]. *)
Fixpoint lit_seq (lit : str) (r : regex) : regex :=
  match lit with
  | [] => r
  | c :: lit' => RSeq (RChr (CChar c)) (lit_seq lit' r)
  end.

(** What checking one file writes to standard output. *)
Definition file_output (fm : str * ast_node) : str :=
  match check_docstrings (fst fm) (snd fm) with
  | Ok (_, out) => out
  | Raise _ => []
  end.

(** A file given on the command line by its own path. *)
Definition as_file (fm : str * ast_node) : cli_path := PyFile (fst fm) (snd fm).

(* ===================================================================== *)
(** * Part II: properties                                                 *)
(* ===================================================================== *)

(** ** The pattern table against the repository's own test table *)

(** Every parametrized case of the repository's [test_regexes] holds:
    [bool(re.match(regexes[name], line))] is the expected value. *)
Example test_regexes :
  forallb (fun t =>
             match dict_get (fst (fst t)) regexes with
             | Some regex => Bool.eqb (re_match regex (py (snd (fst t)))) (snd t)
             | None => false
             end) test_regexes_table = true.
Proof. vm_compute. reflexivity. Qed.

(** ** The matcher *)

Section Matcher.

Implicit Types (r : regex) (cs : cset) (s m rest : str).

Lemma star_runs_spec cs s m rest :
  In (m, rest) (star_runs cs s) <->
  s = m ++ rest /\ Forall (fun c => cset_mem cs c = true) m.
Proof.
  revert m rest. induction s as [|c s IH]; intros m rest; simpl.
  - split.
    + intros [H|[]]. inversion H; subst. split; [reflexivity|constructor].
    + intros [H _]. symmetry in H. apply app_eq_nil in H as [-> ->]. now left.
  - destruct (cset_mem cs c) eqn:Hc.
    + rewrite in_app_iff, in_map_iff. split.
      * intros [[[m' r'] [Heq Hin]]|[Heq|[]]].
        -- inversion Heq; subst; simpl in *. apply IH in Hin as [-> HF].
           split; [reflexivity|now constructor].
        -- inversion Heq; subst. split; [reflexivity|constructor].
      * intros [Heq HF]. destruct m as [|c' m'].
        -- right. left. simpl in Heq. now subst.
        -- left. inversion Heq; subst. inversion HF; subst.
           exists (m', rest). split; [reflexivity|]. apply IH. now split.
    + split.
      * intros [Heq|[]]. inversion Heq; subst. split; [reflexivity|constructor].
      * intros [Heq HF]. destruct m as [|c' m'].
        -- left. simpl in Heq. now subst.
        -- inversion Heq; subst. inversion HF; subst. congruence.
  Qed.

(** The matcher finds exactly the matches of the pattern. *)
Lemma ms_den r : forall s m rest,
  In (m, rest) (ms r s) <-> s = m ++ rest /\ den r m rest.
Proof.
  induction r as [|cs|cs|cs|ml|a IHa b IHb|a IHa b IHb|]; intros s m rest; simpl.
  - split.
    + intros [H|[]]. inversion H; subst. now split.
    + intros [-> ->]. now left.
  - destruct s as [|c s].
    + split; [intros []|]. intros [H (c & -> & _)]. discriminate.
    + destruct (cset_mem cs c) eqn:Hc.
      * split.
        -- intros [H|[]]. inversion H; subst. split; [reflexivity|eauto].
        -- intros [H (c' & -> & Hc')]. inversion H; subst. now left.
      * split; [intros []|]. intros [H (c' & -> & Hc')].
        inversion H; subst. congruence.
  - apply star_runs_spec.
  - destruct s as [|c s].
    + split; [intros []|]. intros [H [Hne _]]. symmetry in H.
      apply app_eq_nil in H as [-> _]. now elim Hne.
    + destruct (cset_mem cs c) eqn:Hc.
      * rewrite in_map_iff. split.
        -- intros [[m' r'] [Heq Hin]]. inversion Heq; subst; simpl in *.
           apply star_runs_spec in Hin as [-> HF].
           repeat split; [discriminate|now constructor].
        -- intros [Heq [Hne HF]]. destruct m as [|c' m']; [now elim Hne|].
           inversion Heq; subst. inversion HF; subst.
           exists (m', rest). split; [reflexivity|].
           apply star_runs_spec. now split.
      * split; [intros []|]. intros [Heq [Hne HF]].
        destruct m as [|c' m']; [now elim Hne|].
        inversion Heq; subst. inversion HF; subst. congruence.
  - destruct (at_eol ml s) eqn:He.
    + split.
      * intros [H|[]]. inversion H; subst. now repeat split.
      * intros [-> [-> _]]. now left.
    + split; [intros []|]. intros [-> [-> H]]. simpl in *. congruence.
  - rewrite in_flat_map. split.
    + intros [[m1 r1] [H1 H2]]. apply in_map_iff in H2 as [[m2 r2] [Heq H2]].
      inversion Heq; subst; simpl in *.
      apply IHa in H1 as [-> Ha]. apply IHb in H2 as [-> Hb].
      split; [now rewrite app_assoc|]. now exists m1, m2.
    + intros [-> (m1 & m2 & -> & Ha & Hb)].
      exists (m1, m2 ++ rest). split.
      * apply IHa. split; [now rewrite app_assoc|assumption].
      * apply in_map_iff. exists (m2, rest). split; [reflexivity|].
        apply IHb. now split.
  - rewrite in_app_iff, IHa, IHb. tauto.
  - tauto.
Qed.

Lemma match_at_in r s m rest :
  match_at r s = Some (m, rest) -> In (m, rest) (ms r s).
Proof.
  unfold match_at. destruct (ms r s); simpl; [discriminate|].
  intros H; inversion H; now left.
Qed.

Lemma match_at_sound r s m rest :
  match_at r s = Some (m, rest) -> s = m ++ rest /\ den r m rest.
Proof. intros H. now apply ms_den, match_at_in. Qed.

Lemma match_at_complete r s m rest :
  den r m rest -> s = m ++ rest -> match_at r s <> None.
Proof.
  intros Hd Hs. assert (Hin : In (m, rest) (ms r s)) by (apply ms_den; now split).
  unfold match_at. destruct (ms r s); [destruct Hin|discriminate].
Qed.

Lemma match_at_none r s :
  match_at r s = None <-> forall m rest, s = m ++ rest -> ~ den r m rest.
Proof.
  split.
  - intros H m rest Hs Hd. now apply (match_at_complete r s m rest Hd Hs).
  - intros H. unfold match_at. destruct (ms r s) as [|[m rest] l] eqn:E; [reflexivity|].
    exfalso. assert (Hin : In (m, rest) (ms r s)) by (rewrite E; now left).
    apply ms_den in Hin as [Hs Hd]. exact (H m rest Hs Hd).
Qed.

End Matcher.

(** ** List facts used below *)

Section ListFacts.

Context {A B C : Type}.

Lemma flat_map_ext_in (f g : A -> list B) (l : list A) :
  (forall x, In x l -> f x = g x) -> flat_map f l = flat_map g l.
Proof.
  induction l as [|x l IH]; intros H; simpl; [reflexivity|].
  rewrite (H x (or_introl eq_refl)), IH; [reflexivity|].
  intros y Hy. apply H. now right.
Qed.

Lemma flat_map_of_map (f : B -> list C) (g : A -> B) (l : list A) :
  flat_map f (map g l) = flat_map (fun x => f (g x)) l.
Proof. induction l as [|x l IH]; simpl; [reflexivity|now rewrite IH]. Qed.

Lemma map_of_flat_map (f : B -> C) (g : A -> list B) (l : list A) :
  map f (flat_map g l) = flat_map (fun x => map f (g x)) l.
Proof.
  induction l as [|x l IH]; simpl; [reflexivity|].
  now rewrite map_app, IH.
Qed.

Lemma flat_map_nil_in (f : A -> list B) (l : list A) :
  (forall x, In x l -> f x = []) -> flat_map f l = [].
Proof.
  induction l as [|x l IH]; intros H; simpl; [reflexivity|].
  rewrite (H x (or_introl eq_refl)), IH; [reflexivity|].
  intros y Hy. apply H. now right.
Qed.

Lemma hd_error_flat_map (f : A -> list B) (l : list A) (y : B) :
  hd_error (flat_map f l) = Some y ->
  exists x, In x l /\ hd_error (f x) = Some y.
Proof.
  induction l as [|x l IH]; simpl; [discriminate|].
  destruct (f x) as [|z fx] eqn:E; simpl.
  - intros H. destruct (IH H) as (x' & Hin & Hx'). exists x'. split; [now right|assumption].
  - intros H. exists x. split; [now left|]. now rewrite E.
Qed.

Lemma hd_error_in (l : list A) (x : A) : hd_error l = Some x -> In x l.
Proof. destruct l; simpl; [discriminate|]. intros H; inversion H. now left. Qed.

Lemma hd_error_some_of_in (l : list A) (x : A) :
  In x l -> exists y, hd_error l = Some y.
Proof. destruct l as [|y l]; [intros []|]. intros _. now exists y. Qed.

End ListFacts.

(** ** Sequences, alternatives and line-local patterns *)

Section Patterns.

Implicit Types (r a b : regex) (cs : cset) (s m rest : str).

Lemma ms_seq_assoc x y z s :
  ms (RSeq (RSeq x y) z) s = ms (RSeq x (RSeq y z)) s.
Proof.
  simpl. induction (ms x s) as [|[m1 r1] l IH]; simpl; [reflexivity|].
  rewrite flat_map_app, IH. f_equal. clear IH.
  induction (ms y r1) as [|[m2 r2] l2 IH2]; simpl; [reflexivity|].
  rewrite map_app, IH2. f_equal. rewrite map_map.
  apply map_ext. intros [m3 r3]; simpl. now rewrite app_assoc.
Qed.

Lemma ms_rapp a b : forall s, ms (rapp a b) s = ms (RSeq a b) s.
Proof.
  induction a as [| | | | |x _ a' IH| |]; intros s; try reflexivity.
  simpl rapp. rewrite ms_seq_assoc.
  simpl. apply flat_map_ext. intros [m1 r1]. simpl. now rewrite IH.
Qed.

Lemma ms_mk_alt (l : list regex) s :
  l <> [] -> ms (mk_alt l) s = flat_map (fun r => ms r s) l.
Proof.
  induction l as [|r l IH]; [congruence|]. intros _.
  destruct l as [|r' l].
  - simpl. now rewrite app_nil_r.
  - change (ms (mk_alt (r :: r' :: l)) s)
      with (ms r s ++ ms (mk_alt (r' :: l)) s).
    rewrite IH by discriminate. reflexivity.
Qed.

Lemma one_line_app s1 s2 : one_line (s1 ++ s2) <-> one_line s1 /\ one_line s2.
Proof. unfold one_line. rewrite in_app_iff. tauto. Qed.

Lemma one_line_cons c s : one_line (c :: s) <-> c <> nl /\ one_line s.
Proof. unfold one_line. simpl. intuition congruence. Qed.

Lemma ascii_eqb_eq (a b : ascii) : ascii_eqb a b = true <-> a = b.
Proof. apply Ascii.eqb_eq. Qed.

Lemma ascii_eqb_neq (a b : ascii) : ascii_eqb a b = false <-> a <> b.
Proof. apply Ascii.eqb_neq. Qed.

Lemma at_eol_multiline rest :
  at_eol true rest = true <-> rest = [] \/ exists rest', rest = nl :: rest'.
Proof.
  destruct rest as [|c rest]; simpl.
  - intuition.
  - rewrite andb_true_r, ascii_eqb_eq. split.
    + intros ->. right. eauto.
    + intros [H|[rest' H]]; [discriminate|]. now inversion H.
Qed.

Lemma cset_no_nl_mem cs c : cset_no_nl cs = true -> cset_mem cs c = true -> c <> nl.
Proof.
  unfold cset_no_nl. rewrite negb_true_iff. intros H1 H2 ->. congruence.
Qed.

Lemma star_runs_line_local cs ln rest :
  cset_no_nl cs = true -> at_eol true rest = true ->
  star_runs cs (ln ++ rest) = map (fun mr => (fst mr, snd mr ++ rest)) (star_runs cs ln).
Proof.
  intros Hcs He. induction ln as [|c ln IH]; simpl.
  - apply at_eol_multiline in He as [->|[rest' ->]]; [reflexivity|].
    simpl. unfold cset_no_nl in Hcs. rewrite negb_true_iff in Hcs.
    now rewrite Hcs.
  - destruct (cset_mem cs c); [|reflexivity].
    rewrite IH, map_app, !map_map. reflexivity.
Qed.

(** A line-local pattern matches at the start of a text as it does on the
    first line alone. *)
Lemma ms_line_local r :
  line_local r = true ->
  forall ln rest, at_eol true rest = true ->
  ms r (ln ++ rest) = map (fun mr => (fst mr, snd mr ++ rest)) (ms r ln).
Proof.
  induction r as [|cs|cs|cs|ml|a IHa b' IHb|a IHa b' IHb|];
    simpl; intros Hl ln rest He.
  - reflexivity.
  - destruct ln as [|c ln]; simpl.
    + apply at_eol_multiline in He as [->|[rest' ->]]; [reflexivity|].
      unfold cset_no_nl in Hl. rewrite negb_true_iff in Hl. now rewrite Hl.
    + now destruct (cset_mem cs c).
  - now apply star_runs_line_local.
  - destruct ln as [|c ln]; simpl.
    + apply at_eol_multiline in He as [->|[rest' ->]]; [reflexivity|].
      unfold cset_no_nl in Hl. rewrite negb_true_iff in Hl. now rewrite Hl.
    + destruct (cset_mem cs c); [|reflexivity].
      rewrite star_runs_line_local by assumption. rewrite !map_map. reflexivity.
  - discriminate.
  - apply andb_true_iff in Hl as [Ha Hb].
    rewrite (IHa Ha ln rest He), flat_map_of_map, map_of_flat_map.
    apply flat_map_ext. intros [m1 r1]. simpl.
    rewrite (IHb Hb r1 rest He), !map_map. reflexivity.
  - apply andb_true_iff in Hl as [Ha Hb].
    now rewrite (IHa Ha ln rest He), (IHb Hb ln rest He), map_app.
  - reflexivity.
Qed.

(** What a line-local pattern matches has no newline. *)
Lemma den_line_local r : line_local r = true ->
  forall m rest, den r m rest -> one_line m.
Proof.
  assert (HF : forall cs m, cset_no_nl cs = true ->
             Forall (fun c => cset_mem cs c = true) m -> one_line m).
  { intros cs m Hcs HF. induction HF as [|c m Hc _ IH]; [intros []|].
    apply one_line_cons. split; [|assumption]. eapply cset_no_nl_mem; eauto. }
  induction r as [|cs|cs|cs|ml|a IHa b IHb|a IHa b IHb|]; simpl; intros Hl m rest Hd.
  - subst. intros [].
  - destruct Hd as (c & -> & Hc). apply one_line_cons. split; [|intros []].
    eapply cset_no_nl_mem; eauto.
  - eauto.
  - destruct Hd; eauto.
  - discriminate.
  - apply andb_true_iff in Hl as [Ha Hb]. destruct Hd as (m1 & m2 & -> & H1 & H2).
    apply one_line_app. eauto.
  - apply andb_true_iff in Hl as [Ha Hb]. destruct Hd; eauto.
  - destruct Hd.
Qed.

End Patterns.

(** ** The scan of [finditer] *)

Section Scan.

Variable r : regex.


(** Every reported match is the match of the engine at its offset. *)
Lemma scan_sound : forall s k off p m,
  In (p, m) (scan r s k off) ->
  off <= p /\ exists rest, match_at r (skipn (p - off) s) = Some (m, rest).
Proof.
  induction s as [|c s IH]; intros k off p m; destruct k as [|k]; simpl.
  - destruct (match_at r []) as [[m' rest']|] eqn:E; simpl; [|intros []].
    intros [H|[]]. inversion H; subst. split; [lia|].
    rewrite Nat.sub_diag. simpl. eauto.
  - intros [].
  - destruct (match_at r (c :: s)) as [[m' rest']|] eqn:E; simpl.
    + intros [H|H].
      * inversion H; subst. split; [lia|]. rewrite Nat.sub_diag. simpl. eauto.
      * apply IH in H as [Hle [rest H]]. split; [lia|]. exists rest.
        replace (p - off) with (S (p - S off)) by lia. exact H.
    + intros H. apply IH in H as [Hle [rest H]]. split; [lia|]. exists rest.
      replace (p - off) with (S (p - S off)) by lia. exact H.
  - intros H. apply IH in H as [Hle [rest H]]. split; [lia|]. exists rest.
    replace (p - off) with (S (p - S off)) by lia. exact H.
Qed.

(** No place where the pattern matches is passed over: it lies inside a
    reported match (or is the place of a reported empty match). *)
Lemma scan_cover : forall s k off i,
  k <= i -> i <= length s -> match_at r (skipn i s) <> None ->
  exists p m, In (p, m) (scan r s k off) /\
              p <= off + i /\ off + i < p + Nat.max 1 (length m).
Proof.
  induction s as [|c s IH]; intros k off i Hk Hi Hm.
  - simpl in Hi. assert (i = 0) by lia. assert (k = 0) by lia. subst. cbn [scan skipn] in *.
    destruct (match_at r []) as [[m' rest']|]; [|congruence].
    exists off, m'. split; [now left|lia].
  - destruct k as [|k]; cbn [scan].
    + destruct (match_at r (c :: s)) as [[m' rest']|] eqn:E.
      * destruct (Nat.ltb_spec i (Nat.max 1 (length m'))) as [Hlt|Hge].
        -- exists off, m'. split; [now left|lia].
        -- destruct i as [|i]; [lia|]. simpl in Hi, Hm.
           destruct (IH (pred (length m')) (S off) i) as (p & m & Hin & H1 & H2);
             [lia|lia|assumption|].
           exists p, m. split; [now right|lia].
      * destruct i as [|i]; [simpl in Hm; congruence|]. simpl in Hi, Hm.
        destruct (IH 0 (S off) i) as (p & m & Hin & H1 & H2);
          [lia|lia|assumption|].
        exists p, m. split; [assumption|lia].
    + destruct i as [|i]; [lia|]. simpl in Hi, Hm.
      destruct (IH k (S off) i) as (p & m & Hin & H1 & H2);
        [lia|lia|assumption|].
      exists p, m. split; [assumption|lia].
Qed.

(** A stretch of text in which the pattern matches nowhere is passed. *)
Lemma scan_skip : forall pre s off,
  (forall i, i < length pre -> match_at r (skipn i (pre ++ s)) = None) ->
  scan r (pre ++ s) 0 off = scan r s 0 (off + length pre).
Proof.
  induction pre as [|c pre IH]; intros s off H; simpl.
  - now rewrite Nat.add_0_r.
  - pose proof (H 0 ltac:(simpl; lia)) as H0. simpl in H0. rewrite H0.
    rewrite IH; [f_equal; lia|].
    intros i Hi. apply (H (S i)). simpl. lia.
Qed.


End Scan.

(** ** The compiled patterns *)

Section CompiledPatterns.

Lemma findall_summary d :
  re_findall (py "\[summary\]") false d = map snd (finditer summary_regex d).
Proof. unfold re_findall, summary_regex. reflexivity. Qed.

Lemma findall_description d :
  re_findall (py ":.*: *\[description\]") false d
  = map snd (finditer description_regex d).
Proof. unfold re_findall, description_regex. reflexivity. Qed.

Lemma findall_type d :
  re_findall (py ":.*: *\[type\]") false d = map snd (finditer type_regex d).
Proof. unfold re_findall, type_regex. reflexivity. Qed.

Lemma findall_newlines d :
  re_findall newlines_pattern true d = map snd (finditer newlines_regex d).
Proof. unfold re_findall, newlines_regex. reflexivity. Qed.

Lemma findall_empty_fields d :
  re_findall empty_fields_pattern true d
  = map snd (finditer empty_fields_regex d).
Proof. unfold re_findall, empty_fields_regex. reflexivity. Qed.

Lemma newlines_regex_eq :
  newlines_regex =
  RSeq (RStar CDot) (RSeq (RChr (CChar nl)) (mk_alt field_line_regexes)).
Proof. vm_compute. reflexivity. Qed.


Lemma tag_regexes_line_local :
  forallb (fun x => line_local (tag_regex x)) regexes_values = true.
Proof. vm_compute. reflexivity. Qed.

Lemma tag_regex_line_local x :
  In x regexes_values -> line_local (tag_regex x) = true.
Proof.
  intros H. pose proof tag_regexes_line_local as HF.
  rewrite forallb_forall in HF. now apply HF.
Qed.

Lemma den_rapp a b m rest : den (rapp a b) m rest <-> den (RSeq a b) m rest.
Proof.
  split; intros H.
  - assert (Hin : In (m, rest) (ms (rapp a b) (m ++ rest))) by (apply ms_den; auto).
    rewrite ms_rapp in Hin. now apply ms_den in Hin.
  - assert (Hin : In (m, rest) (ms (RSeq a b) (m ++ rest))) by (apply ms_den; auto).
    rewrite <- ms_rapp in Hin. now apply ms_den in Hin.
Qed.

Lemma den_mk_alt l m rest :
  l <> [] -> (den (mk_alt l) m rest <-> exists r, In r l /\ den r m rest).
Proof.
  intros Hl. split.
  - intros H.
    assert (Hin : In (m, rest) (ms (mk_alt l) (m ++ rest))) by (apply ms_den; auto).
    rewrite ms_mk_alt in Hin by assumption. apply in_flat_map in Hin as [r [Hr Hin]].
    exists r. split; [assumption|]. now apply ms_den in Hin.
  - intros [r [Hr H]].
    assert (Hin : In (m, rest) (ms (mk_alt l) (m ++ rest))).
    { rewrite ms_mk_alt by assumption. apply in_flat_map. exists r.
      split; [assumption|]. apply ms_den; auto. }
    now apply ms_den in Hin.
Qed.

Lemma den_lit_prefix r : forall m rest,
  den r m rest -> exists m', m = lit_prefix r ++ m'.
Proof.
  induction r as [|cs|cs|cs|ml|a IHa b IHb|a IHa b IHb|]; intros m rest H;
    try (exists m; reflexivity).
  - destruct cs; try (exists m; reflexivity).
    destruct H as (c' & -> & Hc). simpl in Hc. apply ascii_eqb_eq in Hc. subst.
    now exists [].
  - destruct a; try (exists m; reflexivity).
    destruct cs; try (exists m; reflexivity).
    destruct H as (m1 & m2 & -> & (c' & -> & Hc) & H2).
    simpl in Hc. apply ascii_eqb_eq in Hc. subst.
    destruct (IHb _ _ H2) as [m' ->]. now exists m'.
Qed.

Lemma den_needs_nonspace r : needs_nonspace r = true ->
  forall m rest, den r m rest -> Exists (fun c => is_space c = false) m.
Proof.
  assert (Hcs : forall cs c, cset_nonspace cs = true -> cset_mem cs c = true ->
                is_space c = false).
  { intros [a| | |] c; simpl; try discriminate.
    - rewrite negb_true_iff, ascii_eqb_eq. now intros H <-.
    - now rewrite negb_true_iff. }
  induction r as [|cs|cs|cs|ml|a IHa b IHb|a IHa b IHb|]; simpl; intros Hn m rest H;
    try discriminate.
  - destruct H as (c & -> & Hc). constructor. eauto.
  - destruct H as [Hne HF]. destruct HF as [|c m Hc _]; [now elim Hne|].
    constructor. eauto.
  - destruct H as (m1 & m2 & -> & H1 & H2). apply Exists_app.
    apply orb_true_iff in Hn as [Hn|Hn]; eauto.
  - apply andb_true_iff in Hn as [Hna Hnb]. destruct H; eauto.
  - destruct H.
Qed.

End CompiledPatterns.

(** ** The rules as functions of the documentation text *)

Section Rules.

Lemma split_on_one_line a : one_line a -> split_on nl a = [a].
Proof.
  induction a as [|c a IH]; intros H; simpl; [reflexivity|].
  apply one_line_cons in H as [Hc Ha]. apply ascii_eqb_neq in Hc.
  rewrite Hc, (IH Ha). reflexivity.
Qed.

Lemma split_on_two a b :
  one_line a -> one_line b -> split_on nl (a ++ nl :: b) = [a; b].
Proof.
  intros Ha Hb. induction a as [|c a IH]; simpl.
  - now rewrite split_on_one_line.
  - apply one_line_cons in Ha as [Hc Ha]. apply ascii_eqb_neq in Hc.
    rewrite Hc, (IH Ha). reflexivity.
Qed.

Lemma Forall_dot_one_line m :
  Forall (fun c => cset_mem CDot c = true) m <-> one_line m.
Proof.
  induction m as [|c m IH].
  - split; [intros _ []|constructor].
  - rewrite one_line_cons, <- IH. simpl. split.
    + intros H. inversion H as [|? ? Hc Hm]; subst.
      rewrite negb_true_iff, ascii_eqb_neq in Hc. now split.
    + intros [Hc Hm]. constructor; [|assumption].
      now rewrite negb_true_iff, ascii_eqb_neq.
Qed.

Lemma field_line_regexes_line_local r :
  In r field_line_regexes -> line_local r = true.
Proof.
  assert (H : forallb line_local field_line_regexes = true) by (vm_compute; reflexivity).
  rewrite forallb_forall in H. apply H.
Qed.

Lemma field_line_regexes_colon r m rest :
  In r field_line_regexes -> den r m rest -> exists m', m = ":"%char :: m'.
Proof.
  intros Hr Hd.
  assert (H : forallb (fun r => startswith (py ":") (lit_prefix r))
                      field_line_regexes = true) by (vm_compute; reflexivity).
  rewrite forallb_forall in H. specialize (H r Hr).
  destruct (den_lit_prefix r m rest Hd) as [m' ->].
  destruct (lit_prefix r) as [|c l]; [discriminate|]. simpl in H.
  apply andb_true_iff in H as [Hc _]. apply ascii_eqb_eq in Hc. subst.
  now exists (l ++ m').
Qed.

(** What the pattern of [check_newlines] matches: a line, a newline and a line
    that starts a field. *)
Lemma newlines_match_shape m rest :
  den newlines_regex m rest ->
  exists a b, m = a ++ nl :: b /\ one_line a /\ one_line b /\
              exists r, In r field_line_regexes /\ den r b rest.
Proof.
  rewrite newlines_regex_eq. cbn [den cset_mem].
  intros (m1 & m2 & -> & H1 & (m3 & m4 & -> & (c & -> & Hc) & H4)).
  apply ascii_eqb_eq in Hc. subst c.
  apply den_mk_alt in H4 as [r [Hr H4]]; [|discriminate].
  exists m1, m4. split; [reflexivity|]. split; [now apply Forall_dot_one_line|].
  split; [|eauto]. eapply den_line_local; eauto using field_line_regexes_line_local.
Qed.

Lemma finditer_hd_sound r s p m l :
  finditer r s = (p, m) :: l ->
  exists rest, match_at r (skipn p s) = Some (m, rest).
Proof.
  intros H. destruct (scan_sound r s 0 0 p m) as [_ [rest Hr]].
  - unfold finditer in H. rewrite H. now left.
  - exists rest. now rewrite Nat.sub_0_r in Hr.
Qed.

Lemma docstring_appended self self' added :
  appended self self' added -> docstring self' = docstring self.
Proof. intros (Hf & _ & _). unfold docstring. now rewrite Hf. Qed.

Lemma appended_refl self : appended self self [].
Proof. unfold appended. now rewrite app_nil_r. Qed.

Lemma appended_add self l : appended self (add_errors self l) l.
Proof. now unfold appended. Qed.

Lemma appended_trans s1 s2 s3 l1 l2 :
  appended s1 s2 l1 -> appended s2 s3 l2 -> appended s1 s3 (l1 ++ l2).
Proof.
  intros (F1 & P1 & E1) (F2 & P2 & E2). unfold appended.
  rewrite F2, F1, P2, P1, E2, E1, app_assoc. auto.
Qed.

Lemma check_defaults_spec self d :
  docstring self = Some d ->
  exists self', check_defaults self = Ok self' /\
                appended self self' (defaults_diags d).
Proof.
  intros Hd. unfold check_defaults, findall_docstring, defaults_diags.
  rewrite Hd. cbn [bind].
  destruct (re_findall (py "\[summary\]") false d
            ++ re_findall (py ":.*: *\[description\]") false d
            ++ re_findall (py ":.*: *\[type\]") false d) as [|x l].
  - exists self. split; [reflexivity|apply appended_refl].
  - eexists. split; [reflexivity|apply appended_add].
Qed.

Lemma cehck_empty_docstring_spec self d :
  docstring self = Some d ->
  exists self', cehck_empty_docstring self = Ok self' /\
                appended self self' (empty_docstring_diags d).
Proof.
  intros Hd. unfold cehck_empty_docstring, empty_docstring_diags. rewrite Hd.
  destruct (strip d).
  - eexists. split; [reflexivity|apply appended_add].
  - exists self. split; [reflexivity|apply appended_refl].
Qed.

Lemma check_empty_fields_spec self d :
  docstring self = Some d ->
  exists self', check_empty_fields self = Ok self' /\
                appended self self' (empty_fields_diags d).
Proof.
  intros Hd. unfold check_empty_fields, findall_docstring, empty_fields_diags.
  rewrite Hd. cbn [bind].
  destruct (re_findall empty_fields_pattern true d) as [|x l].
  - exists self. split; [reflexivity|apply appended_refl].
  - eexists. split; [reflexivity|apply appended_add].
Qed.

(** The first match of [check_newlines] always splits in two: the unpacking
    never fails. *)
Lemma newlines_first_match_splits d m0 l :
  re_findall newlines_pattern true d = m0 :: l ->
  exists a b, split_on nl m0 = [a; b] /\ m0 = a ++ nl :: b.
Proof.
  rewrite findall_newlines. intros H.
  destruct (finditer newlines_regex d) as [|[p m] l'] eqn:E; [discriminate|].
  simpl in H. inversion H; subst.
  destruct (finditer_hd_sound _ _ _ _ _ E) as [rest Hm].
  apply match_at_sound in Hm as [_ Hm].
  apply newlines_match_shape in Hm as (a & b & -> & Ha & Hb & _).
  exists a, b. split; [now apply split_on_two|reflexivity].
Qed.

Lemma check_newlines_spec self d :
  docstring self = Some d ->
  exists self', check_newlines self = Ok self' /\
                appended self self' (newlines_diags d).
Proof.
  intros Hd. unfold check_newlines, findall_docstring, newlines_diags.
  rewrite Hd. cbn [bind].
  destruct (re_findall newlines_pattern true d) as [|m0 l] eqn:E.
  - exists self. split; [reflexivity|apply appended_refl].
  - destruct (newlines_first_match_splits d m0 l E) as (a & b & -> & _).
    destruct (strip a).
    + exists self. split; [reflexivity|apply appended_refl].
    + eexists. split; [reflexivity|apply appended_add].
Qed.

(** [run_checks] on a documented object: it never raises, the four rules
    append their diagnostics in order and the count is the length of the
    list. *)
Lemma run_checks_spec self d :
  docstring self = Some d ->
  exists self',
    run_checks self = Ok (PyInt (length (errors self')), self', print_errors self')
    /\ appended self self' (all_diags d).
Proof.
  intros Hd. unfold run_checks. rewrite Hd.
  destruct (check_defaults_spec self d Hd) as (s1 & -> & A1).
  pose proof (docstring_appended _ _ _ A1) as D1. rewrite Hd in D1.
  destruct (cehck_empty_docstring_spec s1 d D1) as (s2 & E2 & A2).
  pose proof (docstring_appended _ _ _ A2) as D2. rewrite D1 in D2.
  destruct (check_empty_fields_spec s2 d D2) as (s3 & E3 & A3).
  pose proof (docstring_appended _ _ _ A3) as D3. rewrite D2 in D3.
  destruct (check_newlines_spec s3 d D3) as (s4 & E4 & A4).
  cbn [bind]. rewrite E2. cbn [bind]. rewrite E3. cbn [bind]. rewrite E4.
  cbn [bind]. exists s4. split; [reflexivity|].
  unfold all_diags.
  exact (appended_trans _ _ _ _ _ A1
           (appended_trans _ _ _ _ _ A2 (appended_trans _ _ _ _ _ A3 A4))).
Qed.

Lemma run_checks_undocumented self :
  docstring self = None -> run_checks self = Ok (PyNone, self, []).
Proof. intros Hd. unfold run_checks. now rewrite Hd. Qed.

End Rules.

(** ** White-space-only documentation *)

Section Blank.

Lemma lstrip_nil s : lstrip s = [] <-> blank s.
Proof.
  unfold blank. induction s as [|c s IH]; simpl.
  - split; [constructor|reflexivity].
  - destruct (is_space c) eqn:Hc.
    + rewrite IH. split; [now constructor|]. intros H. now inversion H.
    + split; [discriminate|]. intros H. inversion H. congruence.
Qed.

Lemma lstrip_blank_or_head s :
  lstrip s = [] \/ exists c s', lstrip s = c :: s' /\ is_space c = false.
Proof.
  induction s as [|c s IH]; simpl; [now left|].
  destruct (is_space c) eqn:Hc; [assumption|]. right. eauto.
Qed.

Lemma strip_nil s : strip s = [] <-> blank s.
Proof.
  unfold strip, rstrip. split.
  - intros H. apply lstrip_nil.
    destruct (lstrip_blank_or_head s) as [E|(c & s' & E & Hc)]; [assumption|].
    exfalso. rewrite E in H.
    assert (Hr : lstrip (rev (c :: s')) = []).
    { apply (f_equal (@rev ascii)) in H. now rewrite rev_involutive in H. }
    apply lstrip_nil in Hr. unfold blank in Hr. rewrite Forall_forall in Hr.
    specialize (Hr c). rewrite <- in_rev in Hr.
    specialize (Hr (or_introl eq_refl)). congruence.
  - intros H. apply lstrip_nil in H. now rewrite H.
Qed.

Lemma blank_skipn s i : blank s -> blank (skipn i s).
Proof.
  unfold blank. rewrite !Forall_forall. intros H c Hc. apply H.
  rewrite <- (firstn_skipn i s). apply in_or_app. now right.
Qed.

(** A pattern that needs a character that is not white space finds nothing in
    white-space-only text. *)
Lemma finditer_blank r s :
  needs_nonspace r = true -> blank s -> finditer r s = [].
Proof.
  intros Hr Hs. unfold finditer.
  assert (Hnone : forall i, match_at r (skipn i s) = None).
  { intros i. apply match_at_none. intros m rest Hsplit Hd.
    apply (den_needs_nonspace r Hr) in Hd. apply Exists_exists in Hd as (c & Hc & Hsp).
    pose proof (blank_skipn s i Hs) as Hb. unfold blank in Hb.
    rewrite Forall_forall in Hb. specialize (Hb c).
    rewrite Hsplit in Hb. rewrite Hb in Hsp; [discriminate|].
    apply in_or_app. now left. }
  rewrite <- (app_nil_r s) at 1. rewrite scan_skip.
  - simpl. specialize (Hnone (length s)). rewrite skipn_all in Hnone.
    now rewrite Hnone.
  - intros i _. rewrite app_nil_r. apply Hnone.
Qed.

Lemma program_patterns_need_nonspace :
  forallb needs_nonspace
    [summary_regex; description_regex; type_regex; empty_fields_regex;
     newlines_regex] = true.
Proof. vm_compute. reflexivity. Qed.

Lemma all_diags_blank d :
  blank d -> all_diags d = [py "empty-docstring-error: no docstring content"].
Proof.
  intros Hd. pose proof program_patterns_need_nonspace as Hn.
  cbn [forallb] in Hn. repeat (apply andb_true_iff in Hn as [? Hn]).
  unfold all_diags, defaults_diags, empty_docstring_diags, empty_fields_diags,
    newlines_diags.
  rewrite findall_summary, findall_description, findall_type,
    findall_empty_fields, findall_newlines.
  rewrite !finditer_blank by assumption.
  apply strip_nil in Hd. rewrite Hd. reflexivity.
Qed.

End Blank.

(** ** The claims about [run_checks] and the rules *)

(** C2 (the code departs from the claim).  On an object without a
    documentation string [run_checks] executes the bare [return]: the caller
    gets [None], not the number 0 its annotation [-> int] and its docstring
    ("number of errors") announce.  Nothing is appended and nothing is
    printed. *)
Theorem run_checks_undocumented_returns_None :
  run_checks undocumented_function = Ok (PyNone, undocumented_function, [])
  /\ PyNone <> PyInt 0.
Proof. split; [reflexivity|discriminate]. Qed.

Lemma startswith_app p x : startswith p (p ++ x) = true.
Proof.
  induction p as [|c p IH]; simpl; [reflexivity|].
  unfold ascii_eqb at 1. now rewrite Ascii.eqb_refl.
Qed.

Lemma has_category_prefixed (c tail x : str) :
  In c categories -> has_category ((c ++ tail) ++ x).
Proof.
  intros Hc. exists c. split; [assumption|].
  rewrite <- app_assoc. apply startswith_app.
Qed.

Lemma all_diags_categories d :
  Forall has_category (defaults_diags d) /\
  Forall has_category (empty_docstring_diags d) /\
  Forall has_category (empty_fields_diags d) /\
  Forall has_category (newlines_diags d).
Proof.
  repeat split.
  - unfold defaults_diags. apply Forall_forall. intros x Hx.
    apply in_map_iff in Hx as (y & <- & _).
    apply (has_category_prefixed (py "default-docstring-error") (py ": ")).
    simpl. auto.
  - unfold empty_docstring_diags. destruct (strip d); constructor; [|constructor].
    apply (has_category_prefixed (py "empty-docstring-error")
             (py ": no docstring content") []).
    simpl. auto.
  - unfold empty_fields_diags. apply Forall_forall. intros x Hx.
    apply in_map_iff in Hx as (y & <- & _).
    apply (has_category_prefixed (py "missing-description-error") (py ": ")).
    simpl. auto.
  - unfold newlines_diags.
    destruct (re_findall newlines_pattern true d) as [|m0 l]; [constructor|].
    destruct (split_on nl m0) as [|a [|b [|? ?]]]; try constructor.
    destruct (strip a); constructor; [|constructor].
    apply (has_category_prefixed (py "missing-newline-error") (py ": '")).
    simpl. auto.
Qed.

Lemma rule_spec rule diags self d :
  In (rule, diags) rules_with_diags -> docstring self = Some d ->
  exists self',
    rule self = Ok self' /\ appended self self' (diags d) /\
    Forall has_category (diags d).
Proof.
  intros Hr Hd. destruct (all_diags_categories d) as (C1 & C2 & C3 & C4).
  simpl in Hr.
  destruct Hr as [Hr|[Hr|[Hr|[Hr|[]]]]]; inversion Hr; subst; clear Hr.
  - destruct (check_defaults_spec self d Hd) as (s' & E & A). eauto.
  - destruct (cehck_empty_docstring_spec self d Hd) as (s' & E & A). eauto.
  - destruct (check_empty_fields_spec self d Hd) as (s' & E & A). eauto.
  - destruct (check_newlines_spec self d Hd) as (s' & E & A). eauto.
Qed.

Lemma rule_raises_undocumented rule self :
  In rule rules -> docstring self = None -> exists e, rule self = Raise e.
Proof.
  intros Hr Hd. simpl in Hr. destruct Hr as [<-|[<-|[<-|[<-|[]]]]].
  - unfold check_defaults, findall_docstring. rewrite Hd. simpl. eauto.
  - unfold cehck_empty_docstring. rewrite Hd. eauto.
  - unfold check_empty_fields, findall_docstring. rewrite Hd. simpl. eauto.
  - unfold check_newlines, findall_docstring. rewrite Hd. simpl. eauto.
Qed.

Lemma rules_have_diags rule :
  In rule rules -> exists diags, In (rule, diags) rules_with_diags.
Proof.
  simpl. intros [<-|[<-|[<-|[<-|[]]]]]; eexists; eauto 6.
Qed.

(** C9.  Every rule only appends to the list of diagnostics: the list before
    the rule is a prefix of the list after it, and each appended diagnostic
    starts with one of the four categories. *)
Theorem diagnostics_grow_only :
  forall rule self self',
    In rule rules -> rule self = Ok self' ->
    exists added,
      errors self' = errors self ++ added /\ Forall has_category added.
Proof.
  intros rule self self' Hr Hok.
  destruct (docstring self) as [d|] eqn:Hd.
  - destruct (rules_have_diags rule Hr) as [diags Hin].
    destruct (rule_spec rule diags self d Hin Hd) as (s' & E & (_ & _ & A) & C).
    rewrite Hok in E. inversion E; subst. eauto.
  - destruct (rule_raises_undocumented rule self Hr Hd) as [e E]. congruence.
Qed.

Lemma diagnostics_grow_only_witness :
  In check_defaults rules /\
  check_defaults (documented (py "[summary]"))
  = Ok (add_errors (documented (py "[summary]"))
          [py "default-docstring-error: [summary]"]) /\
  exists added,
    errors (add_errors (documented (py "[summary]"))
              [py "default-docstring-error: [summary]"])
    = errors (documented (py "[summary]")) ++ added /\
    Forall has_category added.
Proof.
  assert (H1 : In check_defaults rules) by (simpl; auto).
  assert (H2 : check_defaults (documented (py "[summary]"))
               = Ok (add_errors (documented (py "[summary]"))
                       [py "default-docstring-error: [summary]"]))
    by (vm_compute; reflexivity).
  split; [exact H1|]. split; [exact H2|].
  exact (diagnostics_grow_only check_defaults _ _ H1 H2).
Defined.

(** C8.  The diagnostics of every rule and of the whole check are functions of
    the documentation text alone: for a text [d] there is one list of
    diagnostics that each rule appends on every object documented by [d],
    whatever its node, path and earlier diagnostics, and every newly created
    object documented by [d] ends with the same diagnostics, in the same
    order, and the same returned count. *)
Theorem checks_are_functions_of_the_text :
  forall d : str,
    (forall rule, In rule rules ->
       exists added, forall self, docstring self = Some d ->
         exists self', rule self = Ok self' /\ appended self self' added)
    /\
    (exists diags, forall node fpath, docstring (init node fpath) = Some d ->
       exists self' out,
         run_checks (init node fpath) = Ok (PyInt (length diags), self', out)
         /\ errors self' = diags).
Proof.
  intros d. split.
  - intros rule Hr. destruct (rules_have_diags rule Hr) as [diags Hin].
    exists (diags d). intros self Hd.
    destruct (rule_spec rule diags self d Hin Hd) as (s' & E & A & _). eauto.
  - exists (all_diags d). intros node fpath Hd.
    destruct (run_checks_spec _ d Hd) as (s' & E & (_ & _ & A)).
    simpl in A. rewrite <- A. eauto.
Qed.

(** C10.  A documentation string that is present but empty after trimming
    gives exactly one diagnostic, the [empty-docstring-error], and
    [run_checks] returns 1: the other three rules find nothing. *)
Theorem run_checks_blank_docstring :
  forall node fpath d,
    docstring (init node fpath) = Some d -> strip d = [] ->
    exists out,
      run_checks (init node fpath)
      = Ok (PyInt 1,
            add_errors (init node fpath)
              [py "empty-docstring-error: no docstring content"],
            out).
Proof.
  intros node fpath d Hd Hs. apply strip_nil in Hs.
  destruct (run_checks_spec _ d Hd) as (s' & E & (F & P & A)).
  rewrite (all_diags_blank d Hs) in A. simpl in A.
  assert (Hs' : s' = add_errors (init node fpath)
                       [py "empty-docstring-error: no docstring content"]).
  { destruct s' as [f e q]. simpl in *. subst. reflexivity. }
  rewrite E. rewrite Hs'. simpl. eauto.
Qed.

Lemma run_checks_blank_docstring_witness :
  docstring (documented (py "  ")) = Some (py "  ") /\
  strip (py "  ") = [] /\
  exists out,
    run_checks (documented (py "  "))
    = Ok (PyInt 1,
          add_errors (documented (py "  "))
            [py "empty-docstring-error: no docstring content"],
          out).
Proof.
  split; [reflexivity|]. split; [reflexivity|].
  exact (run_checks_blank_docstring
           (AstNode FunctionDef (Some (py "f")) (Some 1) (Some (py "  ")) [])
           (py "a.py") (py "  ") eq_refl eq_refl).
Defined.

(** ** The collection of the objects *)

Section Collection.

Lemma walk_queue_perm todo : Permutation (walk_queue todo) (flat_map nodes_of todo).
Proof.
  funelim (walk_queue todo); simp walk_queue; [constructor|].
  simpl. destruct n as [c x l d cs]. simpl. constructor.
  match goal with IH : Permutation (walk_queue _) _ |- _ => rewrite IH end.
  rewrite flat_map_app. apply Permutation_app_comm.
Qed.

(** [ast.walk] yields every node of the tree once. *)
Lemma ast_walk_perm module : Permutation (ast_walk module) (nodes_of module).
Proof.
  unfold ast_walk. rewrite walk_queue_perm. simpl. now rewrite app_nil_r.
Qed.

Context {A : Type} (key : A -> nat).

Lemma insert_by_perm x l : Permutation (insert_by key x l) (x :: l).
Proof.
  induction l as [|y l IH]; simpl; [reflexivity|].
  destruct (key x <=? key y); [reflexivity|].
  rewrite IH. apply perm_swap.
Qed.

Lemma sort_by_perm l : Permutation (sort_by key l) l.
Proof.
  induction l as [|x l IH]; simpl; [constructor|].
  rewrite insert_by_perm. now constructor.
Qed.

Lemma insert_by_sorted x l :
  StronglySorted (fun a b => key a <= key b) l ->
  StronglySorted (fun a b => key a <= key b) (insert_by key x l).
Proof.
  induction l as [|y l IH]; intros Hs; simpl.
  - constructor; constructor.
  - inversion Hs as [|? ? Hl Hy]; subst.
    destruct (Nat.leb_spec (key x) (key y)) as [Hle|Hgt].
    + constructor; [assumption|]. constructor; [assumption|].
      eapply Forall_impl; [|exact Hy]. simpl. intros; lia.
    + constructor; [now apply IH|].
      rewrite Forall_forall. intros z Hz.
      apply (Permutation_in _ (insert_by_perm x l)) in Hz.
      destruct Hz as [<-|Hz]; [lia|].
      rewrite Forall_forall in Hy. now apply Hy.
Qed.

Lemma sort_by_sorted l :
  StronglySorted (fun a b => key a <= key b) (sort_by key l).
Proof.
  induction l as [|x l IH]; simpl; [constructor|]. now apply insert_by_sorted.
Qed.

Lemma insert_by_stable k x l :
  filter (fun a => key a =? k) (insert_by key x l)
  = filter (fun a => key a =? k) (x :: l).
Proof.
  induction l as [|y l IH]; [reflexivity|].
  cbn [insert_by]. destruct (Nat.leb_spec (key x) (key y)) as [Hle|Hgt];
    [reflexivity|].
  cbn [filter] in *. rewrite IH.
  destruct (Nat.eqb_spec (key x) k), (Nat.eqb_spec (key y) k);
    try reflexivity. lia.
Qed.

Lemma strongly_sorted_before (R : A -> A -> Prop) l1 x l2 :
  StronglySorted R (l1 ++ x :: l2) -> Forall (fun a => R a x) l1.
Proof.
  induction l1 as [|y l1 IH]; simpl; intros H; [constructor|].
  inversion H as [|? ? Hl Hy]; subst. constructor; [|now apply IH].
  rewrite Forall_forall in Hy. apply Hy. apply in_or_app. right. now left.
Qed.

(** The sort keeps the order of the objects that have the same key. *)
Lemma sort_by_stable k l :
  filter (fun a => key a =? k) (sort_by key l) = filter (fun a => key a =? k) l.
Proof.
  induction l as [|x l IH]; [reflexivity|].
  cbn [sort_by fold_right]. fold (sort_by key l).
  rewrite insert_by_stable. cbn [filter]. now rewrite IH.
Qed.

End Collection.

(** C1, the claim as stated fails: the collector wraps the module node and the
    body statement besides the function definition. *)
Lemma function_definitions_wraps_other_nodes :
  function_definitions (py "sample_file.py") small_module
  = [ init small_module (py "sample_file.py");
      init (AstNode FunctionDef (Some (py "func")) (Some 6)
              (Some (py "Docstring Title."))
              [ AstNode (OtherNode "Expr") None (Some 7) None [] ])
           (py "sample_file.py");
      init (AstNode (OtherNode "Expr") None (Some 7) None []) (py "sample_file.py") ]
  /\ is_definition (node_cls small_module) = false.
Proof.
  split; [|reflexivity].
  unfold function_definitions, ast_walk, small_module.
  simp walk_queue. reflexivity.
Qed.

(** C1 as amended.  The collector wraps every node of the tree walk, whatever
    its class (so every function, async function and class definition, and
    the other nodes too), each once, with the path and an empty list of
    diagnostics; the result is sorted by line number ascending, a node
    without line number counting as line 0 and so sorting first, and nodes
    on the same line keep the order of the walk.  The objects of nodes of
    another class than module, function, async function and class are
    skipped by [run_checks]: no diagnostic and no output. *)
Theorem function_definitions_all_nodes_sorted :
  forall (fpath : str) (module : ast_node),
    Permutation (function_definitions fpath module)
                (map (fun x => init x fpath) (nodes_of module))
    /\ StronglySorted (fun a b => lineno a <= lineno b)
                      (function_definitions fpath module)
    /\ (forall x, node_lineno x = None -> lineno (init x fpath) = 0)
    /\ (forall before r after,
          function_definitions fpath module = before ++ r :: after ->
          node_lineno (function_def r) = None ->
          Forall (fun a => lineno a = 0) before)
    /\ (forall k,
          filter (fun a => lineno a =? k) (function_definitions fpath module)
          = filter (fun a => lineno a =? k)
                   (map (fun x => init x fpath) (ast_walk module)))
    /\ (forall r cls,
          In r (function_definitions fpath module) ->
          node_cls (function_def r) = OtherNode cls ->
          run_checks r = Ok (PyNone, r, [])).
Proof.
  intros fpath module. unfold function_definitions. repeat split.
  - rewrite sort_by_perm. apply Permutation_map, ast_walk_perm.
  - apply sort_by_sorted.
  - intros x Hx. unfold lineno. simpl. now rewrite Hx.
  - intros before r after E Hr.
    pose proof (sort_by_sorted lineno (map (fun x => init x fpath) (ast_walk module)))
      as Hs.
    rewrite E in Hs. apply strongly_sorted_before in Hs.
    eapply Forall_impl; [|exact Hs]. simpl. intros a Ha.
    unfold lineno at 2 in Ha. rewrite Hr in Ha. simpl in Ha. lia.
  - intros k. apply sort_by_stable.
  - intros r cls _ Hc. unfold run_checks, docstring, ast_get_docstring.
    now rewrite Hc.
Qed.

(** ** The exit status *)

Section ExitStatus.

Lemma is_empty_app {A : Type} (l1 l2 : list A) :
  is_empty (l1 ++ l2) = is_empty l1 && is_empty l2.
Proof. now destruct l1. Qed.

(** On a newly created object [run_checks] returns a true value exactly when
    the object ends with a diagnostic. *)
Lemma run_checks_fresh node fpath :
  exists v self' out,
    run_checks (init node fpath) = Ok (v, self', out) /\
    truthy v = negb (is_empty (errors self')).
Proof.
  destruct (docstring (init node fpath)) as [d|] eqn:Hd.
  - destruct (run_checks_spec _ d Hd) as (s' & E & _).
    exists (PyInt (length (errors s'))), s', (print_errors s').
    split; [assumption|]. now destruct (errors s').
  - exists PyNone, (init node fpath), []. split; [|reflexivity].
    now apply run_checks_undocumented.
Qed.

Lemma run_all_fresh fpath (nodes : list ast_node) :
  exists vs out,
    run_all (map (fun x => init x fpath) nodes) = Ok (vs, out) /\
    existsb truthy vs
    = negb (is_empty (flat_map record_diagnostics
                               (map (fun x => init x fpath) nodes))).
Proof.
  induction nodes as [|n nodes (vs & out & E & H)]; simpl.
  - exists [], []. now split.
  - destruct (run_checks_fresh n fpath) as (v & s' & o & Er & Hv).
    rewrite Er, E. cbn [bind fst snd].
    exists (v :: vs), (o ++ out). split; [reflexivity|].
    unfold record_diagnostics at 1. rewrite Er.
    cbn [existsb]. rewrite is_empty_app, negb_andb, Hv, H. reflexivity.
Qed.

Lemma function_definitions_fresh fpath module :
  exists nodes,
    function_definitions fpath module = map (fun x => init x fpath) nodes.
Proof.
  unfold function_definitions.
  pose proof (sort_by_perm lineno (map (fun x => init x fpath) (ast_walk module)))
    as HP.
  apply Permutation_map_inv in HP as (nodes & E & _).
  now exists nodes.
Qed.

Lemma check_docstrings_spec fpath module :
  exists out,
    check_docstrings fpath module
    = Ok (negb (is_empty (file_diagnostics fpath module)), out).
Proof.
  unfold check_docstrings, file_diagnostics.
  destruct (function_definitions_fresh fpath module) as [nodes ->].
  destruct (run_all_fresh fpath nodes) as (vs & out & -> & H).
  cbn [bind fst snd]. rewrite H. eauto.
Qed.

Lemma main_files_spec fs : forall errors out,
  exists out',
    main_files fs errors out
    = Ok (errors + length (filter has_diagnostics fs), out').
Proof.
  induction fs as [|[fname module] fs IH]; intros errors out; simpl.
  - exists out. now rewrite Nat.add_0_r.
  - destruct (check_docstrings_spec fname module) as [o ->]. cbn [bind fst snd].
    destruct (IH (errors + (if negb (is_empty (file_diagnostics fname module))
                            then 1 else 0)) (out ++ o)) as [out' ->].
    exists out'. unfold has_diagnostics at 2. cbn [fst snd].
    destruct (negb (is_empty (file_diagnostics fname module))); simpl;
      do 2 f_equal; lia.
Qed.

Lemma main_paths_spec ps : forall errors out,
  exists out',
    main_paths ps errors out
    = Ok (errors + length (filter has_diagnostics (files_of ps)), out').
Proof.
  induction ps as [|p ps IH]; intros errors out; simpl.
  - exists out. now rewrite Nat.add_0_r.
  - destruct (main_files_spec (paths_of p) errors out) as [o ->].
    cbn [bind fst snd].
    destruct (IH (errors + length (filter has_diagnostics (paths_of p))) o)
      as [out' ->].
    exists out'. rewrite filter_app, length_app. do 2 f_equal. lia.
Qed.

Lemma all_clean_filter ps :
  all_clean ps = (length (filter has_diagnostics (files_of ps)) =? 0).
Proof.
  unfold all_clean. induction (files_of ps) as [|fm fs IH]; [reflexivity|].
  cbn [forallb filter]. unfold has_diagnostics at 1.
  destruct (is_empty (file_diagnostics (fst fm) (snd fm))); simpl; [exact IH|].
  reflexivity.
Qed.

End ExitStatus.

(** C7.  Whatever the paths of the invocation, [main] returns a status, and it
    is 0 when no file has a diagnostic and 1 when at least one file has at
    least one; no other status is returned. *)
Theorem main_exit_status :
  forall opts_path : list cli_path,
    exists out,
      main opts_path = Ok ((if all_clean opts_path then 0 else 1), out).
Proof.
  intros ps. unfold main.
  destruct (main_paths_spec ps 0 []) as [out ->]. cbn [bind fst snd].
  rewrite all_clean_filter. exists out.
  now destruct (length (filter has_diagnostics (files_of ps))).
Qed.

(** ** Indented field lines *)

(** [re.match] with a pattern of the table refuses a line that starts with
    white space, as the test table requires. *)
Lemma re_match_rejects_indented x c line :
  In x regexes_values -> is_space c = true -> re_match x (c :: line) = false.
Proof.
  intros Hx Hc. unfold re_match. fold (tag_regex x).
  destruct (match_at (tag_regex x) (c :: line)) as [[m rest]|] eqn:E; [|reflexivity].
  exfalso. apply match_at_sound in E as [Hs Hd].
  assert (H : forallb (fun x => startswith (py ":") (lit_prefix (tag_regex x)))
                      regexes_values = true) by (vm_compute; reflexivity).
  rewrite forallb_forall in H. specialize (H x Hx).
  destruct (den_lit_prefix _ _ _ Hd) as [m' ->].
  destruct (lit_prefix (tag_regex x)) as [|c' l]; [discriminate|].
  simpl in H. apply andb_true_iff in H as [Hc' _]. apply ascii_eqb_eq in Hc'.
  subst c'. inversion Hs; subst. vm_compute in Hc. discriminate.
Qed.

(** C4 (the code departs from the claim).  [check_empty_fields] searches the
    pattern anywhere in the text, so an empty field that is indented is
    reported all the same. *)
Theorem check_empty_fields_flags_indented_field :
  check_empty_fields (documented indented_field_doc)
  = Ok (add_errors (documented indented_field_doc)
          [py "missing-description-error: :param x:"]).
Proof. vm_compute. reflexivity. Qed.

(** ** The placeholder rule *)

Section Literal.

Lemma startswith_iff p s : startswith p s = true <-> exists rest, s = p ++ rest.
Proof.
  revert s. induction p as [|c p IH]; intros s; simpl.
  - split; eauto.
  - destruct s as [|c' s].
    + split; [discriminate|]. intros [rest H]. discriminate.
    + rewrite andb_true_iff, ascii_eqb_eq, IH. split.
      * intros [-> [rest ->]]. eauto.
      * intros [rest H]. inversion H; subst. eauto.
Qed.

Lemma startswith_nil_false p : p <> [] -> startswith p [] = false.
Proof. destruct p; [congruence|reflexivity]. Qed.

Lemma den_literal r : forall lit m rest,
  literal_of r = Some lit -> (den r m rest <-> m = lit).
Proof.
  induction r as [|cs|cs|cs|ml|a IHa b IHb|a IHa b IHb|]; intros lit m rest;
    simpl; try discriminate.
  - destruct cs; try discriminate. intros H; inversion H; subst. split.
    + intros (c' & -> & Hc). simpl in Hc. apply ascii_eqb_eq in Hc. now subst.
    + intros ->. exists c. split; [reflexivity|]. simpl. now apply ascii_eqb_eq.
  - destruct a; try discriminate. destruct cs; try discriminate.
    destruct (literal_of b) as [lb|] eqn:Eb; [|discriminate].
    intros H; inversion H; subst. split.
    + intros (m1 & m2 & -> & (c' & -> & Hc) & H2).
      simpl in Hc. apply ascii_eqb_eq in Hc. subst.
      apply (IHb lb) in H2; [|reflexivity]. now subst.
    + intros ->. exists [c], lb. split; [reflexivity|]. split.
      * exists c. split; [reflexivity|]. simpl. now apply ascii_eqb_eq.
      * now apply (IHb lb).
Qed.

Variables (r : regex) (lit : str).
Hypothesis Hlit : literal_of r = Some lit.

Lemma match_at_literal s :
  match_at r s = if startswith lit s then Some (lit, skipn (length lit) s) else None.
Proof.
  destruct (startswith lit s) eqn:E.
  - apply startswith_iff in E as [rest ->].
    destruct (match_at r (lit ++ rest)) as [[m rest']|] eqn:Em.
    + apply match_at_sound in Em as [Hs Hd]. apply (den_literal r lit) in Hd; auto.
      subst m. apply app_inv_head in Hs. subst. f_equal. f_equal.
      now rewrite skipn_app, skipn_all, Nat.sub_diag.
    + exfalso. apply (match_at_complete r (lit ++ rest) lit rest); auto.
      now apply (den_literal r lit).
  - apply match_at_none. intros m rest Hs Hd.
    apply (den_literal r lit) in Hd; auto. subst.
    assert (startswith lit (lit ++ rest) = true) by apply startswith_app.
    congruence.
Qed.

(** When the literal cannot overlap itself, the scan reports every
    occurrence. *)
Hypothesis Hne : lit <> [].
Hypothesis Hno_overlap : forall rest i,
  i < pred (length lit) -> startswith lit (skipn (S i) (lit ++ rest)) = false.

Lemma scan_literal : forall s k off,
  (forall i, i < k -> startswith lit (skipn i s) = false) ->
  map fst (scan r s k off) = occurrences lit s off /\
  Forall (fun pm => snd pm = lit) (scan r s k off).
Proof.
  induction s as [|c s IH]; intros k off Hk.
  - pose proof (startswith_nil_false lit Hne) as H0.
    destruct k as [|k]; simpl; rewrite H0;
      [|split; [reflexivity|constructor]].
    rewrite match_at_literal, H0. split; [reflexivity|constructor].
  - destruct k as [|k]; cbn [scan occurrences].
    + rewrite match_at_literal. destruct (startswith lit (c :: s)) eqn:E.
      * destruct (IH (pred (length lit)) (S off)) as [IH1 IH2].
        { intros i Hi. apply startswith_iff in E as [rest E].
          specialize (Hno_overlap rest i Hi). rewrite <- E in Hno_overlap.
          exact Hno_overlap. }
        simpl. rewrite IH1. split; [reflexivity|now constructor].
      * destruct (IH 0 (S off)) as [IH1 IH2]; [intros i Hi; lia|].
        simpl. now rewrite IH1.
    + pose proof (Hk 0 ltac:(lia)) as H0. simpl in H0. rewrite H0.
      destruct (IH k (S off)) as [IH1 IH2].
      { intros i Hi. apply (Hk (S i)). lia. }
      simpl. now rewrite IH1.
Qed.

End Literal.

Lemma summary_occurrences d :
  map fst (finditer summary_regex d) = occurrences (py "[summary]") d 0 /\
  Forall (fun pm => snd pm = py "[summary]") (finditer summary_regex d).
Proof.
  apply scan_literal.
  - reflexivity.
  - discriminate.
  - intros rest i Hi.
    do 8 (destruct i as [|i]; [reflexivity|]). simpl in Hi. lia.
  - intros i Hi. lia.
Qed.

Section Placeholder.

(** A placeholder pattern: [:.*: *] and then the placeholder [ph]. *)
Variables (re tail : regex) (ph : str).
Hypothesis Hre :
  re = RSeq (RChr (CChar ":")) (RSeq (RStar CDot) (RSeq (RChr (CChar ":"))
         (RSeq (RStar (CChar " ")) tail))).
Hypothesis Htail : literal_of tail = Some ph.

Lemma den_placeholder m rest :
  den re m rest <->
  exists a sp, m = ":"%char :: a ++ ":"%char :: sp ++ ph /\
               one_line a /\ Forall (fun c => c = " "%char) sp.
Proof.
  rewrite Hre. cbn [den cset_mem]. split.
  - intros (m1 & m2 & -> & (c1 & -> & Hc1) & m3 & m4 & -> & Ha & m5 & m6 & ->
            & (c2 & -> & Hc2) & m7 & m8 & -> & Hsp & Hph).
    apply ascii_eqb_eq in Hc1, Hc2. subst.
    apply (den_literal tail ph) in Hph; [|exact Htail]. subst.
    exists m3, m7. split; [reflexivity|]. split; [now apply Forall_dot_one_line|].
    eapply Forall_impl; [|exact Hsp]. intros c Hc. apply ascii_eqb_eq in Hc. now subst.
  - intros (a & sp & -> & Ha & Hsp).
    exists [":"%char], (a ++ ":"%char :: sp ++ ph). split; [reflexivity|]. split.
    { exists ":"%char. split; [reflexivity|]. now apply ascii_eqb_eq. }
    exists a, (":"%char :: sp ++ ph). split; [reflexivity|].
    split; [now apply Forall_dot_one_line|].
    exists [":"%char], (sp ++ ph). split; [reflexivity|]. split.
    { exists ":"%char. split; [reflexivity|]. now apply ascii_eqb_eq. }
    exists sp, ph. split; [reflexivity|]. split.
    + eapply Forall_impl; [|exact Hsp]. intros c ->. now apply ascii_eqb_eq.
    + now apply (den_literal tail ph).
Qed.

(** Every reported match is a piece of the text of the form of the pattern. *)
Lemma placeholder_sound d p m :
  In (p, m) (finditer re d) ->
  occurs_at m p d /\
  exists a sp, m = ":"%char :: a ++ ":"%char :: sp ++ ph /\
               one_line a /\ Forall (fun c => c = " "%char) sp.
Proof.
  intros Hin. apply scan_sound in Hin as [_ [rest Hm]].
  rewrite Nat.sub_0_r in Hm. apply match_at_sound in Hm as [Hs Hd].
  split; [|now apply den_placeholder in Hd].
  exists (firstn p d), rest. rewrite <- Hs, firstn_skipn. split; [reflexivity|].
  apply firstn_length_le.
  destruct (Nat.le_gt_cases p (length d)) as [Hle|Hgt]; [assumption|].
  rewrite skipn_all2 in Hs by lia. symmetry in Hs.
  apply app_eq_nil in Hs as [-> _]. apply den_placeholder in Hd.
  destruct Hd as (a & sp & Heq & _). discriminate.
Qed.

(** Every piece of the text of that form lies inside a reported match,
    whatever follows the placeholder. *)
Lemma placeholder_cover d before a sp after :
  d = before ++ (":"%char :: a ++ ":"%char :: sp ++ ph) ++ after ->
  one_line a -> Forall (fun c => c = " "%char) sp ->
  exists p m, In (p, m) (finditer re d) /\
              p <= length before /\ length before < p + length m.
Proof.
  intros Hd Ha Hsp.
  destruct (scan_cover re d 0 0 (length before)) as (p & m & Hin & H1 & H2).
  - lia.
  - subst d. rewrite length_app. lia.
  - subst d. rewrite skipn_app, skipn_all, Nat.sub_diag. simpl skipn.
    apply (match_at_complete re _ (":"%char :: a ++ ":"%char :: sp ++ ph) after);
      [|reflexivity].
    apply den_placeholder. exists a, sp. auto.
  - exists p, m. split; [assumption|]. simpl in H1, H2.
    destruct (placeholder_sound d p m Hin) as [_ (a' & sp' & -> & _)].
    simpl in *. lia.
Qed.

End Placeholder.

Lemma placeholder_regexes_shape ph re :
  In (ph, re) placeholder_regexes ->
  exists tail,
    re = RSeq (RChr (CChar ":")) (RSeq (RStar CDot) (RSeq (RChr (CChar ":"))
           (RSeq (RStar (CChar " ")) tail)))
    /\ literal_of tail = Some ph.
Proof.
  simpl. intros [H|[H|[]]]; inversion H; subst; eexists;
    (split; [vm_compute; reflexivity|vm_compute; reflexivity]).
Qed.

Lemma defaults_diags_matches d :
  defaults_diags d
  = map (fun pm => py "default-docstring-error: " ++ snd pm) (defaults_matches d).
Proof.
  unfold defaults_diags, defaults_matches.
  rewrite findall_summary, findall_description, findall_type.
  now rewrite <- !map_app, map_map.
Qed.

(** C3, the claim as stated fails: a field line with text after the
    placeholder is flagged (the fixture's [default_yield]). *)
Lemma check_defaults_flags_placeholder_with_text_after :
  check_defaults (documented yield_placeholder_doc)
  = Ok (add_errors (documented yield_placeholder_doc)
          [py "default-docstring-error: :yield: [description]"]).
Proof. vm_compute. reflexivity. Qed.

(** C3 as amended.  The placeholder rule appends one [default-docstring-error]
    per match, with the matched text as detail: first one for every
    occurrence of [[summary]] in the text; then, for [[description]] and for
    [[type]], the matches of a colon, characters of the same line, a colon,
    spaces and the placeholder.  Every such piece of the text lies inside a
    match, whatever text follows the placeholder on its line. *)
Theorem check_defaults_flags_placeholders :
  forall self d,
    docstring self = Some d ->
    exists self',
      check_defaults self = Ok self' /\
      errors self'
      = errors self
        ++ map (fun pm => py "default-docstring-error: " ++ snd pm)
               (defaults_matches d) /\
      map fst (finditer summary_regex d) = occurrences (py "[summary]") d 0 /\
      Forall (fun pm => snd pm = py "[summary]") (finditer summary_regex d) /\
      forall ph re, In (ph, re) placeholder_regexes ->
        (forall p m, In (p, m) (finditer re d) ->
           occurs_at m p d /\
           exists a sp, m = ":"%char :: a ++ ":"%char :: sp ++ ph /\
                        one_line a /\ Forall (fun c => c = " "%char) sp)
        /\
        (forall before a sp after,
           d = before ++ (":"%char :: a ++ ":"%char :: sp ++ ph) ++ after ->
           one_line a -> Forall (fun c => c = " "%char) sp ->
           exists p m, In (p, m) (finditer re d) /\
                       p <= length before /\ length before < p + length m).
Proof.
  intros self d Hd.
  destruct (check_defaults_spec self d Hd) as (s' & E & (_ & _ & A)).
  exists s'. split; [assumption|]. rewrite defaults_diags_matches in A.
  split; [assumption|].
  destruct (summary_occurrences d) as [S1 S2].
  split; [assumption|]. split; [assumption|].
  intros ph re Hin.
  destruct (placeholder_regexes_shape ph re Hin) as (tail & Hre & Htail).
  split.
  - intros p m. now apply (placeholder_sound re tail ph Hre Htail).
  - intros before a sp after. now apply (placeholder_cover re tail ph Hre Htail).
Qed.

Lemma check_defaults_flags_placeholders_witness :
  docstring (documented yield_placeholder_doc) = Some yield_placeholder_doc /\
  exists self',
    check_defaults (documented yield_placeholder_doc) = Ok self' /\
    errors self'
    = errors (documented yield_placeholder_doc)
      ++ map (fun pm => py "default-docstring-error: " ++ snd pm)
             (defaults_matches yield_placeholder_doc).
Proof.
  split; [reflexivity|].
  destruct (check_defaults_flags_placeholders
              (documented yield_placeholder_doc) yield_placeholder_doc eq_refl)
    as (s' & E & A & _).
  exists s'. now split.
Defined.

(** ** The missing-newline rule *)

Section NewlineRule.

Lemma split_on_nonempty c s : split_on c s <> [].
Proof.
  destruct s as [|a s]; simpl; [discriminate|].
  destruct (ascii_eqb a c); [discriminate|].
  destruct (split_on c s); discriminate.
Qed.

(** A text is its lines joined by newlines. *)
Lemma split_on_join s :
  str_join [nl] (split_on nl s) = s /\ Forall one_line (split_on nl s).
Proof.
  induction s as [|c s [IH1 IH2]]; simpl.
  - split; [reflexivity|]. constructor; [intros []|constructor].
  - destruct (ascii_eqb c nl) eqn:Hc.
    + apply ascii_eqb_eq in Hc. subst c. split.
      * pose proof (split_on_nonempty nl s) as Hne.
        destruct (split_on nl s) as [|x l]; [congruence|].
        simpl in *. now rewrite IH1.
      * constructor; [intros []|assumption].
    + apply ascii_eqb_neq in Hc. pose proof (split_on_nonempty nl s) as Hne.
      destruct (split_on nl s) as [|x l]; [congruence|].
      pose proof (Forall_inv IH2) as Hx. pose proof (Forall_inv_tail IH2) as Hl.
      split.
      * destruct l; simpl in *; now rewrite IH1.
      * constructor; [|assumption]. apply one_line_cons. now split.
Qed.

Lemma star_runs_hd_one_line s :
  one_line s -> hd_error (star_runs CDot s) = Some (s, []).
Proof.
  induction s as [|c s IH]; intros H; [reflexivity|].
  apply one_line_cons in H as [Hc Hs]. simpl.
  apply ascii_eqb_neq in Hc. rewrite Hc. simpl.
  specialize (IH Hs). destruct (star_runs CDot s) as [|[m r] l]; [discriminate|].
  simpl in *. now inversion IH.
Qed.

(** [.*] and a newline before a pattern: the whole first line is taken. *)
Lemma ms_dotstar_nl r a y :
  one_line a ->
  ms (RSeq (RStar CDot) (RSeq (RChr (CChar nl)) r)) (a ++ nl :: y)
  = map (fun mr => (a ++ nl :: fst mr, snd mr)) (ms r y).
Proof.
  intros Ha. induction a as [|c a IH].
  - cbn [app ms star_runs cset_mem].
    replace (ascii_eqb nl nl) with true by reflexivity.
    cbn [negb flat_map fst snd map app].
    replace (ascii_eqb nl nl) with true by reflexivity.
    cbn [flat_map fst snd map app]. rewrite !app_nil_r, map_map. reflexivity.
  - apply one_line_cons in Ha as [Hc Ha]. specialize (IH Ha).
    change (ms (RSeq (RStar CDot) (RSeq (RChr (CChar nl)) r)) ((c :: a) ++ nl :: y))
      with (flat_map (fun mr1 =>
                        map (fun mr2 => (fst mr1 ++ fst mr2, snd mr2))
                            (ms (RSeq (RChr (CChar nl)) r) (snd mr1)))
                     (star_runs CDot (c :: a ++ nl :: y))).
    change (ms (RSeq (RStar CDot) (RSeq (RChr (CChar nl)) r)) (a ++ nl :: y))
      with (flat_map (fun mr1 =>
                        map (fun mr2 => (fst mr1 ++ fst mr2, snd mr2))
                            (ms (RSeq (RChr (CChar nl)) r) (snd mr1)))
                     (star_runs CDot (a ++ nl :: y))) in IH.
    cbn [star_runs cset_mem]. apply ascii_eqb_neq in Hc. rewrite Hc. cbn [negb].
    rewrite flat_map_app, flat_map_of_map. cbn [flat_map fst snd].
    assert (Hnil : ms (RSeq (RChr (CChar nl)) r) (c :: a ++ nl :: y) = []).
    { cbn [ms cset_mem]. unfold ascii_eqb in *.
      rewrite Ascii.eqb_sym, Hc. reflexivity. }
    rewrite Hnil. cbn [map]. rewrite !app_nil_r.
    transitivity (map (fun mr => (c :: fst mr, snd mr))
                      (flat_map (fun mr1 =>
                         map (fun mr2 => (fst mr1 ++ fst mr2, snd mr2))
                             (ms (RSeq (RChr (CChar nl)) r) (snd mr1)))
                         (star_runs CDot (a ++ nl :: y)))).
    + rewrite map_of_flat_map. apply flat_map_ext. intros [m1 r1]. cbn [fst snd].
      rewrite map_map. reflexivity.
    + rewrite IH, map_map. reflexivity.
Qed.

Lemma re_match_iff x s : re_match x s = true <-> ms (tag_regex x) s <> [].
Proof.
  unfold re_match, match_at. fold (tag_regex x).
  destruct (ms (tag_regex x) s); simpl; split; congruence.
Qed.

(** A branch of the joined pattern on one line: when the entry of the table
    matches, the whole line is taken. *)
Lemma field_line_hd x b :
  In x regexes_values -> one_line b ->
  hd_error (ms (rapp (tag_regex x) (RStar CDot)) b)
  = if re_match x b then Some (b, []) else None.
Proof.
  intros Hx Hb. rewrite ms_rapp. cbn [ms].
  destruct (re_match x b) eqn:E.
  - apply re_match_iff in E.
    destruct (ms (tag_regex x) b) as [|[m1 r1] l] eqn:El; [congruence|].
    assert (Hin : In (m1, r1) (ms (tag_regex x) b)) by (rewrite El; now left).
    apply ms_den in Hin as [Hs _].
    assert (Hr1 : one_line r1).
    { subst b. apply one_line_app in Hb. tauto. }
    cbn [flat_map fst snd]. pose proof (star_runs_hd_one_line r1 Hr1) as Hh.
    destruct (star_runs CDot r1) as [|[m2 r2] l2]; [discriminate|].
    simpl in Hh. inversion Hh; subst. reflexivity.
  - assert (El : ms (tag_regex x) b = []).
    { destruct (ms (tag_regex x) b) eqn:El; [reflexivity|].
      assert (re_match x b = true) by (apply re_match_iff; rewrite El; discriminate).
      congruence. }
    now rewrite El.
Qed.

Lemma hd_error_flat_map_if {A B : Type} (f : A -> list B) (g : A -> bool)
    (y : B) (l : list A) :
  (forall x, In x l -> hd_error (f x) = if g x then Some y else None) ->
  hd_error (flat_map f l) = if existsb g l then Some y else None.
Proof.
  induction l as [|x l IH]; intros H; [reflexivity|]. simpl.
  pose proof (H x (or_introl eq_refl)) as Hx.
  destruct (g x); simpl.
  - destruct (f x); [discriminate|]. simpl in *. assumption.
  - destruct (f x); [|discriminate]. simpl. apply IH.
    intros z Hz. apply H. now right.
Qed.

Lemma field_lines_hd b :
  one_line b ->
  hd_error (ms (mk_alt field_line_regexes) b)
  = if opens_field b then Some (b, []) else None.
Proof.
  intros Hb. rewrite ms_mk_alt by discriminate.
  unfold field_line_regexes, opens_field. rewrite flat_map_of_map.
  apply hd_error_flat_map_if. intros x Hx. now apply field_line_hd.
Qed.

Lemma field_lines_line_local : line_local (mk_alt field_line_regexes) = true.
Proof. vm_compute. reflexivity. Qed.

(** The match of the pattern of [check_newlines] at the start of a line (or
    inside it) that a further line follows. *)
Lemma newlines_match_at a b rest :
  one_line a -> one_line b -> at_eol true rest = true ->
  match_at newlines_regex (a ++ nl :: b ++ rest)
  = if opens_field b then Some (a ++ nl :: b, rest) else None.
Proof.
  intros Ha Hb Hr. unfold match_at. rewrite newlines_regex_eq.
  rewrite ms_dotstar_nl by assumption.
  rewrite (ms_line_local _ field_lines_line_local b rest Hr), map_map.
  pose proof (field_lines_hd b Hb) as Hh.
  destruct (ms (mk_alt field_line_regexes) b) as [|[m r] l]; simpl in *.
  - now destruct (opens_field b).
  - destruct (opens_field b); [|discriminate]. now inversion Hh.
Qed.

(** On the last line nothing matches. *)
Lemma newlines_no_match_one_line a : one_line a -> match_at newlines_regex a = None.
Proof.
  intros Ha. apply match_at_none. intros m rest Hs Hd.
  apply newlines_match_shape in Hd as (x & y & -> & _).
  apply Ha. rewrite Hs. apply in_or_app. left. apply in_or_app. right. now left.
Qed.

Lemma one_line_skipn i a : one_line a -> one_line (skipn i a).
Proof.
  intros H Hin. apply H. rewrite <- (firstn_skipn i a). apply in_or_app. now right.
Qed.

Lemma scan_nil r s off :
  (forall i, match_at r (skipn i s) = None) -> scan r s 0 off = [].
Proof.
  intros H. rewrite <- (app_nil_r s) at 1. rewrite scan_skip.
  - simpl. specialize (H (length s)). rewrite skipn_all in H. now rewrite H.
  - intros i _. rewrite app_nil_r. apply H.
Qed.

Lemma scan_hd r s off m rest :
  match_at r s = Some (m, rest) ->
  hd_error (map snd (scan r s 0 off)) = Some m.
Proof. intros H. destruct s; simpl; now rewrite H. Qed.

Lemma join_cons_cons a b tl :
  str_join [nl] (a :: b :: tl) = a ++ nl :: str_join [nl] (b :: tl).
Proof. reflexivity. Qed.

Lemma join_first_line b tl :
  exists rest, str_join [nl] (b :: tl) = b ++ rest /\ at_eol true rest = true.
Proof.
  destruct tl as [|c tl].
  - exists []. simpl. now rewrite app_nil_r.
  - exists (nl :: str_join [nl] (c :: tl)). split; reflexivity.
Qed.

(** The first match of the scan is the first pair of lines whose second line
    opens a field. *)
Lemma newlines_first_match lines : forall off,
  lines <> [] -> Forall one_line lines ->
  hd_error (map snd (scan newlines_regex (str_join [nl] lines) 0 off))
  = option_map (fun ab => fst ab ++ nl :: snd ab) (first_field_pair lines).
Proof.
  induction lines as [|a lines IH]; intros off Hne HF; [congruence|].
  inversion HF as [|? ? Ha HF']; subst.
  destruct lines as [|b tl].
  - simpl str_join. simpl first_field_pair. rewrite scan_nil; [reflexivity|].
    intros i. apply newlines_no_match_one_line. now apply one_line_skipn.
  - inversion HF' as [|? ? Hb _]; subst.
    rewrite join_cons_cons. destruct (join_first_line b tl) as (rest & Hj & Hr).
    cbn [first_field_pair]. destruct (opens_field b) eqn:Eo.
    + rewrite Hj. cbn [option_map fst snd].
      apply scan_hd with (rest := rest).
      rewrite newlines_match_at by assumption. now rewrite Eo.
    + replace (a ++ nl :: str_join [nl] (b :: tl))
        with ((a ++ [nl]) ++ str_join [nl] (b :: tl))
        by (now rewrite <- app_assoc).
      rewrite scan_skip.
      * apply IH; [discriminate|assumption].
      * intros i Hi. rewrite length_app in Hi. simpl in Hi.
        rewrite Hj, <- app_assoc. cbn [app].
        assert (Hsk : skipn i (a ++ nl :: b ++ rest)
                      = skipn i a ++ nl :: b ++ rest).
        { rewrite skipn_app.
          replace (i - length a) with 0 by lia. reflexivity. }
        rewrite Hsk, newlines_match_at, Eo; auto using one_line_skipn.
Qed.

Lemma newlines_diags_rule d : newlines_diags d = newline_rule d.
Proof.
  unfold newlines_diags, newline_rule. rewrite findall_newlines.
  destruct (split_on_join d) as [Hj HF].
  pose proof (newlines_first_match (split_on nl d) 0 (split_on_nonempty nl d) HF)
    as Hh.
  rewrite Hj in Hh. unfold finditer.
  destruct (first_field_pair (split_on nl d)) as [[a b]|] eqn:Ep; simpl in Hh.
  - destruct (map snd (scan newlines_regex d 0 0)) as [|m0 l]; [discriminate|].
    simpl in Hh. inversion Hh; subst.
    assert (Hab : one_line a /\ one_line b).
    { clear - Ep HF. induction (split_on nl d) as [|x l IH]; [discriminate|].
      simpl in Ep. destruct l as [|y l']; [discriminate|].
      inversion HF as [|? ? Hx HF']; subst. inversion HF' as [|? ? Hy _]; subst.
      destruct (opens_field y).
      - inversion Ep; subst. now split.
      - now apply IH. }
    destruct Hab as [Ha Hb]. rewrite split_on_two by assumption. reflexivity.
  - destruct (map snd (scan newlines_regex d 0 0)); [reflexivity|discriminate].
Qed.

End NewlineRule.

(** C5, the claim as stated fails: a text whose first line is its first field
    line still gets a diagnostic, for the field line that follows it. *)
Lemma check_newlines_reports_after_first_line_field :
  opens_field (py ":returns: a") = true /\
  check_newlines (documented field_first_doc)
  = Ok (add_errors (documented field_first_doc)
          [py "missing-newline-error: ':rtype: b' needs newline before"]).
Proof. split; vm_compute; reflexivity. Qed.

(** C5 as amended.  The missing-newline rule appends at most one diagnostic.
    It looks at the first two consecutive lines of the text whose second line
    opens a field (a pattern of the table matches at its first column): it
    appends one [missing-newline-error] naming that field line when the line
    before it is not blank, and nothing when that line is blank, when no line
    after the first opens a field, or for any later pair.  A field on the
    very first line has no line before it and is never the reported line, but
    it can be the line before the reported one. *)
Theorem check_newlines_first_pair_only :
  forall self d,
    docstring self = Some d ->
    exists self',
      check_newlines self = Ok self' /\
      errors self' = errors self ++ newline_rule d /\
      length (newline_rule d) <= 1.
Proof.
  intros self d Hd.
  destruct (check_newlines_spec self d Hd) as (s' & E & (_ & _ & A)).
  rewrite newlines_diags_rule in A. exists s'. repeat split; try assumption.
  unfold newline_rule. destruct (first_field_pair (split_on nl d)) as [[a b]|];
    [|simpl; lia].
  destruct (strip a); simpl; lia.
Qed.

Lemma check_newlines_first_pair_only_witness :
  docstring (documented field_first_doc) = Some field_first_doc /\
  exists self',
    check_newlines (documented field_first_doc) = Ok self' /\
    errors self' = errors (documented field_first_doc)
                   ++ newline_rule field_first_doc /\
    length (newline_rule field_first_doc) <= 1.
Proof.
  split; [reflexivity|].
  exact (check_newlines_first_pair_only
           (documented field_first_doc) field_first_doc eq_refl).
Defined.

(** ** The empty-field rule *)

Section EmptyFields.




Lemma den_rest_irrelevant r : line_local r = true ->
  forall m rest rest', den r m rest -> den r m rest'.
Proof.
  induction r as [|cs|cs|cs|ml|a IHa b IHb|a IHa b IHb|]; simpl;
    intros Hl m rest rest' H; try assumption; try discriminate.
  - apply andb_true_iff in Hl as [Ha Hb].
    destruct H as (m1 & m2 & -> & H1 & H2). exists m1, m2. eauto.
  - apply andb_true_iff in Hl as [Ha Hb]. destruct H; eauto.
Qed.

Lemma dict_get_in (tag : string) (d : list (string * str)) x :
  dict_get tag d = Some x -> In (tag, x) d.
Proof.
  induction d as [|[k v] d IH]; simpl; [discriminate|].
  destruct (String.eqb k tag) eqn:E.
  - apply String.eqb_eq in E. intros H; inversion H; subst. now left.
  - intros H. right. now apply IH.
Qed.

Lemma dict_get_value (tag : string) x :
  dict_get tag regexes = Some x -> In x regexes_values.
Proof.
  intros H. apply dict_get_in in H. unfold regexes_values.
  apply in_map_iff. now exists (tag, x).
Qed.















End EmptyFields.




(* ===================================================================== *)
(** * Part III: further properties of the code                            *)
(* ===================================================================== *)

(** ** [run_checks] *)

(** A node of a class that cannot carry a documentation string is skipped:
    [docstring] catches the [TypeError] of [ast.get_docstring], so
    [run_checks] returns [None], appends nothing and prints nothing, whatever
    the node's attributes and the earlier diagnostics of the object. *)
Theorem run_checks_skips_other_nodes :
  forall cls name_attr lineno_attr doc_attr children errs fpath,
    run_checks (Build_ParseFunctionDef
                  (AstNode (OtherNode cls) name_attr lineno_attr doc_attr children)
                  errs fpath)
    = Ok (PyNone,
          Build_ParseFunctionDef
            (AstNode (OtherNode cls) name_attr lineno_attr doc_attr children)
            errs fpath,
          []).
Proof. reflexivity. Qed.

Lemma Forall_in_category c tail l :
  Forall (in_category c) (map (fun x => (py c ++ tail) ++ x) l).
Proof.
  apply Forall_forall. intros y Hy. apply in_map_iff in Hy as (x & <- & _).
  unfold in_category. rewrite <- app_assoc. apply startswith_app.
Qed.

(** On a documented object [run_checks] never raises and appends the
    diagnostics category by category: the placeholder diagnostics, then at
    most one [empty-docstring-error], then the empty fields, then at most one
    [missing-newline-error]; it returns the length of the whole list (the
    earlier diagnostics of the object included) and prints the object. *)
Theorem run_checks_appends_by_category :
  forall self d,
    docstring self = Some d ->
    exists self' l1 l2 l3 l4,
      run_checks self
      = Ok (PyInt (length (errors self) + length (l1 ++ l2 ++ l3 ++ l4)),
            self', print_errors self') /\
      function_def self' = function_def self /\ path self' = path self /\
      errors self' = errors self ++ l1 ++ l2 ++ l3 ++ l4 /\
      Forall (in_category "default-docstring-error") l1 /\
      Forall (in_category "empty-docstring-error") l2 /\ length l2 <= 1 /\
      Forall (in_category "missing-description-error") l3 /\
      Forall (in_category "missing-newline-error") l4 /\ length l4 <= 1.
Proof.
  intros self d Hd.
  destruct (run_checks_spec self d Hd) as (s' & E & (F & P & A)).
  exists s', (defaults_diags d), (empty_docstring_diags d),
    (empty_fields_diags d), (newlines_diags d).
  unfold all_diags in A. rewrite E, A, length_app.
  split; [reflexivity|]. repeat (split; [assumption|]).
  split; [reflexivity|]. split; [|split; [|split; [|split; [|split]]]].
  - apply (Forall_in_category "default-docstring-error" (py ": ")).
  - unfold empty_docstring_diags. destruct (strip d); repeat constructor.
  - unfold empty_docstring_diags. destruct (strip d); simpl; lia.
  - apply (Forall_in_category "missing-description-error" (py ": ")).
  - unfold newlines_diags.
    destruct (re_findall newlines_pattern true d) as [|m0 l]; [constructor|].
    destruct (split_on nl m0) as [|a [|b [|? ?]]]; try constructor.
    destruct (strip a); constructor; [|constructor].
    unfold in_category.
    change (py "missing-newline-error: '" ++ b ++ py "' needs newline before")
      with (py "missing-newline-error" ++ (py ": '" ++ b ++ py "' needs newline before")).
    apply startswith_app.
  - unfold newlines_diags.
    destruct (re_findall newlines_pattern true d) as [|m0 l]; [simpl; lia|].
    destruct (split_on nl m0) as [|a [|b [|? ?]]]; try (simpl; lia).
    destruct (strip a); simpl; lia.
Qed.

Lemma run_checks_appends_by_category_witness :
  docstring (documented multi_fail_doc) = Some multi_fail_doc /\
  exists self' l1 l2 l3 l4,
    run_checks (documented multi_fail_doc)
    = Ok (PyInt (length (errors (documented multi_fail_doc))
                 + length (l1 ++ l2 ++ l3 ++ l4)),
          self', print_errors self') /\
    errors self' = errors (documented multi_fail_doc) ++ l1 ++ l2 ++ l3 ++ l4.
Proof.
  split; [reflexivity|].
  destruct (run_checks_appends_by_category
              (documented multi_fail_doc) multi_fail_doc eq_refl)
    as (s' & l1 & l2 & l3 & l4 & E & _ & _ & A & _).
  exists s', l1, l2, l3, l4. now split.
Defined.

(** The list of diagnostics is never reset: a second [run_checks] on the same
    object appends the same diagnostics again and returns twice the count of
    the first call. *)
Theorem run_checks_twice_accumulates :
  forall node fpath d,
    docstring (init node fpath) = Some d ->
    exists s1 o1 s2 o2,
      run_checks (init node fpath) = Ok (PyInt (length (errors s1)), s1, o1) /\
      run_checks s1 = Ok (PyInt (2 * length (errors s1)), s2, o2) /\
      errors s2 = errors s1 ++ errors s1.
Proof.
  intros node fpath d Hd.
  destruct (run_checks_spec _ d Hd) as (s1 & E1 & A1).
  pose proof (docstring_appended _ _ _ A1) as D1. rewrite Hd in D1.
  destruct (run_checks_spec s1 d D1) as (s2 & E2 & (_ & _ & A2)).
  destruct A1 as (_ & _ & A1). simpl in A1.
  exists s1, (print_errors s1), s2, (print_errors s2).
  split; [assumption|]. rewrite E2, A2, <- A1, length_app.
  replace (2 * length (errors s1)) with (length (errors s1) + length (errors s1))
    by lia.
  split; reflexivity.
Qed.

Lemma run_checks_twice_accumulates_witness :
  docstring (documented (py "[summary]")) = Some (py "[summary]") /\
  exists s1 o1 s2 o2,
    run_checks (documented (py "[summary]"))
    = Ok (PyInt (length (errors s1)), s1, o1) /\
    run_checks s1 = Ok (PyInt (2 * length (errors s1)), s2, o2) /\
    errors s2 = errors s1 ++ errors s1.
Proof.
  split; [reflexivity|].
  exact (run_checks_twice_accumulates
           (AstNode FunctionDef (Some (py "f")) (Some 1) (Some (py "[summary]")) [])
           (py "a.py") (py "[summary]") eq_refl).
Defined.

(** [cehck_empty_docstring] appends its diagnostic exactly when every
    character of the documentation string is white space (the empty string
    included), and nothing otherwise. *)
Theorem empty_docstring_error_iff_blank :
  forall self d,
    docstring self = Some d ->
    exists self',
      cehck_empty_docstring self = Ok self' /\
      ((blank d /\
        errors self'
        = errors self ++ [py "empty-docstring-error: no docstring content"])
       \/ (~ blank d /\ errors self' = errors self)).
Proof.
  intros self d Hd. unfold cehck_empty_docstring. rewrite Hd.
  destruct (strip d) as [|c l] eqn:E.
  - eexists. split; [reflexivity|]. left. split; [now apply strip_nil|reflexivity].
  - exists self. split; [reflexivity|]. right. split; [|reflexivity].
    intros Hb. apply strip_nil in Hb. congruence.
Qed.

Lemma empty_docstring_error_iff_blank_witness :
  docstring (documented []) = Some [] /\
  exists self',
    cehck_empty_docstring (documented []) = Ok self' /\
    ((blank [] /\
      errors self'
      = errors (documented [])
        ++ [py "empty-docstring-error: no docstring content"])
     \/ (~ blank [] /\ errors self' = errors (documented []))).
Proof.
  split; [reflexivity|].
  exact (empty_docstring_error_iff_blank (documented []) [] eq_refl).
Defined.

Lemma print_errors_nil self : print_errors self = [] <-> errors self = [].
Proof.
  unfold print_errors. destruct (errors self) as [|e l].
  - tauto.
  - split; [|discriminate]. unfold print. intros H.
    apply app_eq_nil in H as [H _]. apply app_eq_nil in H as [_ H]. discriminate.
Qed.

(** A newly created object is printed exactly when it has a diagnostic, and
    exactly then the returned value is true: [run_checks] writes nothing for
    an object without documentation string or without findings. *)
Theorem run_checks_prints_iff_findings :
  forall node fpath,
    exists v self' out,
      run_checks (init node fpath) = Ok (v, self', out) /\
      (out = [] <-> errors self' = []) /\
      (truthy v = true <-> errors self' <> []).
Proof.
  intros node fpath.
  destruct (docstring (init node fpath)) as [d|] eqn:Hd.
  - destruct (run_checks_spec _ d Hd) as (s' & E & _).
    exists (PyInt (length (errors s'))), s', (print_errors s').
    split; [assumption|]. split; [apply print_errors_nil|].
    destruct (errors s'); simpl; split; congruence.
  - exists PyNone, (init node fpath), []. split; [now apply run_checks_undocumented|].
    simpl. split; [tauto|]. split; [discriminate|congruence].
Qed.

(** ** The pattern table *)

Section Table.

Lemma den_lit_seq lit r : forall m rest,
  den (lit_seq lit r) m rest <-> exists m', m = lit ++ m' /\ den r m' rest.
Proof.
  induction lit as [|c lit IH]; intros m rest; simpl.
  - split; [eauto|]. now intros (m' & -> & H).
  - split.
    + intros (m1 & m2 & -> & (c' & -> & Hc) & H2).
      apply ascii_eqb_eq in Hc. subst c'.
      apply IH in H2 as (m' & -> & H2). exists m'. split; [reflexivity|assumption].
    + intros (m' & -> & H). exists [c], (lit ++ m'). split; [reflexivity|]. split.
      * exists c. split; [reflexivity|]. now apply ascii_eqb_eq.
      * apply IH. eauto.
Qed.

Lemma re_match_den x s :
  re_match x s = true <-> exists m rest, s = m ++ rest /\ den (tag_regex x) m rest.
Proof.
  unfold re_match. change (re_compile x false) with (tag_regex x). split.
  - destruct (match_at (tag_regex x) s) as [[m rest]|] eqn:E; [|discriminate].
    intros _. apply match_at_sound in E. eauto.
  - intros (m & rest & Hs & Hd).
    pose proof (match_at_complete _ _ _ _ Hd Hs) as Hne.
    now destruct (match_at (tag_regex x) s).
Qed.

Lemma param_like_match (lit : str) x line :
  tag_regex x = lit_seq lit (RSeq (RStar CDot) (RChr (CChar ":"))) ->
  (re_match x line = true <->
   exists a rest, line = lit ++ a ++ ":"%char :: rest /\ one_line a).
Proof.
  intros Hx. rewrite re_match_den, Hx. split.
  - intros (m & rest & -> & Hd). apply den_lit_seq in Hd as (m' & -> & Hd).
    cbn [den cset_mem] in Hd. destruct Hd as (a & m2 & -> & Ha & (c & -> & Hc)).
    apply ascii_eqb_eq in Hc. subst c. exists a, rest.
    split; [now rewrite <- !app_assoc|]. now apply Forall_dot_one_line.
  - intros (a & rest & -> & Ha). exists (lit ++ a ++ [":"%char]), rest. split.
    + now rewrite <- !app_assoc.
    + apply den_lit_seq. exists (a ++ [":"%char]). split; [reflexivity|].
      cbn [den cset_mem]. exists a, [":"%char]. split; [reflexivity|].
      split; [now apply Forall_dot_one_line|].
      exists ":"%char. split; [reflexivity|]. now apply ascii_eqb_eq.
Qed.

Lemma type_like_match (lit : str) x line :
  tag_regex x = lit_seq lit (RSeq (RPlus CNotSpace) (RChr (CChar ":"))) ->
  (re_match x line = true <->
   exists tok rest, line = lit ++ tok ++ ":"%char :: rest /\ tok <> [] /\
                    Forall (fun c => is_space c = false) tok).
Proof.
  assert (HF : forall tok, Forall (fun c => negb (is_space c) = true) tok
                           <-> Forall (fun c => is_space c = false) tok).
  { intros tok. split; apply Forall_impl; intros c; simpl;
      now rewrite negb_true_iff. }
  intros Hx. rewrite re_match_den, Hx. split.
  - intros (m & rest & -> & Hd). apply den_lit_seq in Hd as (m' & -> & Hd).
    cbn [den cset_mem] in Hd. destruct Hd as (a & m2 & -> & [Hne Ha] & (c & -> & Hc)).
    apply ascii_eqb_eq in Hc. subst c. exists a, rest.
    split; [now rewrite <- !app_assoc|]. split; [assumption|now apply HF].
  - intros (a & rest & -> & Hne & Ha). exists (lit ++ a ++ [":"%char]), rest. split.
    + now rewrite <- !app_assoc.
    + apply den_lit_seq. exists (a ++ [":"%char]). split; [reflexivity|].
      cbn [den cset_mem]. exists a, [":"%char]. split; [reflexivity|].
      split; [split; [assumption|now apply HF]|].
      exists ":"%char. split; [reflexivity|]. now apply ascii_eqb_eq.
Qed.

End Table.

(** [param] and [raises]: the line starts with the tag and a space, and a
    colon closes it later on the line; anything may stand between and after
    (an argument is not required: [:param :] is accepted, [:raises:] is
    not). *)
Theorem param_and_raises_lines :
  forall tag x line,
    tag = "param" \/ tag = "raises" ->
    dict_get tag regexes = Some x ->
    (re_match x line = true <->
     exists a rest,
       line = (py ":" ++ py tag ++ py " ") ++ a ++ ":"%char :: rest /\
       one_line a).
Proof.
  intros tag x line [-> | ->] Hx; vm_compute in Hx; inversion Hx; subst x;
    apply param_like_match; vm_compute; reflexivity.
Qed.

Lemma param_and_raises_lines_witness :
  ("param" = "param" \/ "param" = "raises") /\
  dict_get "param" regexes = Some (py ":param .*:") /\
  (re_match (py ":param .*:") (py ":param (int) name: description") = true <->
   exists a rest,
     py ":param (int) name: description"
     = (py ":" ++ py "param" ++ py " ") ++ a ++ ":"%char :: rest /\ one_line a).
Proof.
  split; [now left|]. split; [reflexivity|].
  exact (param_and_raises_lines "param" (py ":param .*:")
           (py ":param (int) name: description") (or_introl eq_refl) eq_refl).
Defined.

(** [type] and [meta]: the line starts with the tag, a space, a non-empty run
    of characters that are not white space, and a colon; so a name with a
    space in it is refused. *)
Theorem type_and_meta_lines :
  forall tag x line,
    tag = "type" \/ tag = "meta" ->
    dict_get tag regexes = Some x ->
    (re_match x line = true <->
     exists tok rest,
       line = (py ":" ++ py tag ++ py " ") ++ tok ++ ":"%char :: rest /\
       tok <> [] /\ Forall (fun c => is_space c = false) tok).
Proof.
  intros tag x line [-> | ->] Hx; vm_compute in Hx; inversion Hx; subst x;
    apply type_like_match; vm_compute; reflexivity.
Qed.

Lemma type_and_meta_lines_witness :
  ("meta" = "type" \/ "meta" = "meta") /\
  dict_get "meta" regexes = Some (py ":meta \S+:") /\
  (re_match (py ":meta \S+:") (py ":meta private:") = true <->
   exists tok rest,
     py ":meta private:" = (py ":" ++ py "meta" ++ py " ") ++ tok ++ ":"%char :: rest /\
     tok <> [] /\ Forall (fun c => is_space c = false) tok).
Proof.
  split; [now right|]. split; [reflexivity|].
  exact (type_and_meta_lines "meta" (py ":meta \S+:") (py ":meta private:")
           (or_intror eq_refl) eq_refl).
Defined.

(** [returns], [rtype] and [yield]: the line starts with the tag between two
    colons, whatever follows. *)
Theorem returns_rtype_yield_lines :
  forall tag x line,
    tag = "returns" \/ tag = "rtype" \/ tag = "yield" ->
    dict_get tag regexes = Some x ->
    re_match x line = startswith (py ":" ++ py tag ++ py ":") line.
Proof.
  intros tag x line Htag Hx. unfold re_match.
  destruct Htag as [-> | [-> | ->]]; simpl in Hx; inversion Hx; subst x.
  - rewrite (match_at_literal (re_compile (py ":returns:") false)
               (py ":returns:") eq_refl).
    change (py ":" ++ py "returns" ++ py ":") with (py ":returns:").
    now destruct (startswith (py ":returns:") line).
  - rewrite (match_at_literal (re_compile (py ":rtype:") false)
               (py ":rtype:") eq_refl).
    change (py ":" ++ py "rtype" ++ py ":") with (py ":rtype:").
    now destruct (startswith (py ":rtype:") line).
  - rewrite (match_at_literal (re_compile (py ":yield:") false)
               (py ":yield:") eq_refl).
    change (py ":" ++ py "yield" ++ py ":") with (py ":yield:").
    now destruct (startswith (py ":yield:") line).
Qed.

Lemma returns_rtype_yield_lines_witness :
  ("rtype" = "returns" \/ "rtype" = "rtype" \/ "rtype" = "yield") /\
  dict_get "rtype" regexes = Some (py ":rtype:") /\
  re_match (py ":rtype:") (py ":rtype:   Description ")
  = startswith (py ":" ++ py "rtype" ++ py ":") (py ":rtype:   Description ").
Proof.
  split; [right; now left|]. split; [reflexivity|].
  exact (returns_rtype_yield_lines "rtype" (py ":rtype:")
           (py ":rtype:   Description ") (or_intror (or_introl eq_refl)) eq_refl).
Defined.

(** Anchoring, as the test table asks: no pattern of the table matches
    ([re.match]) a line that starts with a white space character, so such a
    line never opens a field for the missing-newline rule. *)
Theorem table_patterns_refuse_indented_lines :
  forall tag x c line,
    dict_get tag regexes = Some x -> is_space c = true ->
    re_match x (c :: line) = false /\ opens_field (c :: line) = false.
Proof.
  intros tag x c line Hx Hc. split.
  - apply re_match_rejects_indented; [|assumption]. now apply dict_get_value in Hx.
  - unfold opens_field.
    destruct (existsb (fun y => re_match y (c :: line)) regexes_values) eqn:E;
      [|reflexivity].
    apply existsb_exists in E as (y & Hy & Hm).
    rewrite re_match_rejects_indented in Hm by assumption. discriminate.
Qed.

Lemma table_patterns_refuse_indented_lines_witness :
  dict_get "type" regexes = Some (py ":type \S+:") /\
  is_space " " = true /\
  re_match (py ":type \S+:") (" "%char :: py ":type name: description") = false /\
  opens_field (" "%char :: py ":type name: description") = false.
Proof.
  split; [reflexivity|]. split; [reflexivity|].
  exact (table_patterns_refuse_indented_lines "type" (py ":type \S+:") " "%char
           (py ":type name: description") eq_refl eq_refl).
Defined.

(** ** The matches of the rules *)

Lemma field_line_opens r line rest :
  In r field_line_regexes -> den r line rest -> opens_field line = true.
Proof.
  intros Hr Hd. unfold field_line_regexes in Hr.
  apply in_map_iff in Hr as (x & <- & Hx).
  apply den_rapp in Hd. cbn [den] in Hd. destruct Hd as (t & u & -> & Ht & _).
  unfold opens_field. apply existsb_exists. exists x. split; [assumption|].
  apply re_match_den. exists t, u. split; [reflexivity|].
  exact (den_rest_irrelevant _ (tag_regex_line_local x Hx) _ _ _ Ht).
Qed.

Lemma first_line_split (s : str) :
  exists line rest, s = line ++ rest /\ one_line line /\ at_eol true rest = true.
Proof.
  induction s as [|c s (line & rest & -> & Hl & Hr)].
  - exists [], []. repeat split. intros [].
  - destruct (ascii_eqb c nl) eqn:Hc.
    + apply ascii_eqb_eq in Hc. subst c. exists [], (nl :: line ++ rest).
      repeat split. intros [].
    + apply ascii_eqb_neq in Hc. exists (c :: line), rest.
      split; [reflexivity|]. split; [|assumption].
      apply one_line_cons. now split.
Qed.

(** Every match of the pattern of [check_newlines] holds exactly one newline:
    it is a line (or the end of one), a newline and a whole line that opens a
    field.  So the unpacking of [matches[0].split(newline)] into two names
    cannot fail. *)
Theorem newline_matches_are_two_lines :
  forall d m,
    In m (re_findall newlines_pattern true d) ->
    exists prev line,
      split_on nl m = [prev; line] /\ m = prev ++ nl :: line /\
      one_line prev /\ one_line line /\ opens_field line = true /\
      exists before after,
        d = before ++ m ++ after /\ at_eol true after = true.
Proof.
  intros d m Hin. rewrite findall_newlines in Hin.
  apply in_map_iff in Hin as ([p m'] & Hm & Hin). simpl in Hm. subst m'.
  apply scan_sound in Hin as [_ [rest Hmatch]]. rewrite Nat.sub_0_r in Hmatch.
  pose proof (match_at_sound _ _ _ _ Hmatch) as [Hs Hd].
  apply newlines_match_shape in Hd as (a & b & -> & Ha & Hb & r & Hr & Hd).
  exists a, b. split; [now apply split_on_two|]. split; [reflexivity|].
  split; [assumption|]. split; [assumption|].
  split; [exact (field_line_opens r b rest Hr Hd)|].
  exists (firstn p d), rest. split; [now rewrite <- Hs, firstn_skipn|].
  destruct (first_line_split (b ++ rest)) as (b' & rest' & Hb' & Hone & Heol).
  rewrite Hs, <- app_assoc in Hmatch. cbn [app] in Hmatch.
  rewrite Hb', (newlines_match_at a b' rest' Ha Hone Heol) in Hmatch.
  destruct (opens_field b'); [|discriminate].
  inversion Hmatch as [[Hm Hr']]. now subst rest'.
Qed.

Lemma newline_matches_are_two_lines_witness :
  In (text [":returns: a"; ":rtype: b"])
     (re_findall newlines_pattern true field_first_doc) /\
  exists prev line,
    split_on nl (text [":returns: a"; ":rtype: b"]) = [prev; line] /\
    text [":returns: a"; ":rtype: b"] = prev ++ nl :: line /\
    one_line prev /\ one_line line /\ opens_field line = true /\
    exists before after,
      field_first_doc = before ++ text [":returns: a"; ":rtype: b"] ++ after /\
      at_eol true after = true.
Proof.
  assert (H : In (text [":returns: a"; ":rtype: b"])
                 (re_findall newlines_pattern true field_first_doc))
    by (vm_compute; left; reflexivity).
  split; [exact H|].
  exact (newline_matches_are_two_lines field_first_doc _ H).
Defined.



(** ** The collection and the driver *)

Lemma walk_queue_length todo : length (walk_queue todo) = forest_size todo.
Proof.
  funelim (walk_queue todo); simp walk_queue; [reflexivity|].
  simpl. match goal with IH : length (walk_queue _) = _ |- _ => rewrite IH end.
  unfold forest_size. rewrite map_app, list_sum_app.
  destruct n as [c x l d cs]. simpl. lia.
Qed.

Lemma sort_by_first {A : Type} (key : A -> nat) x l :
  key x = 0 -> sort_by key (x :: l) = x :: sort_by key l.
Proof.
  intros Hx. cbn [sort_by fold_right]. fold (sort_by key l).
  destruct (sort_by key l) as [|y l']; simpl; [reflexivity|]. now rewrite Hx.
Qed.

(** [function_definitions] returns one object per node of the tree, and when
    the root has no line number (a module) the first object is the root's:
    the documentation string of the module is checked first. *)
Theorem module_record_first :
  forall fpath module,
    node_lineno module = None ->
    exists others,
      function_definitions fpath module = init module fpath :: others /\
      length (function_definitions fpath module) = node_size module.
Proof.
  intros fpath module Hl. unfold function_definitions, ast_walk.
  simp walk_queue. cbn [map app].
  rewrite sort_by_first by (unfold lineno; simpl; now rewrite Hl).
  eexists. split; [reflexivity|]. simpl.
  rewrite (Permutation_length (sort_by_perm lineno _)), length_map, walk_queue_length.
  destruct module as [c x l d cs]. reflexivity.
Qed.

Lemma module_record_first_witness :
  node_lineno small_module = None /\
  exists others,
    function_definitions (py "sample_file.py") small_module
    = init small_module (py "sample_file.py") :: others /\
    length (function_definitions (py "sample_file.py") small_module)
    = node_size small_module.
Proof.
  split; [reflexivity|].
  exact (module_record_first (py "sample_file.py") small_module eq_refl).
Defined.

(** [check_docstrings] never raises on a parsed file: it first writes the
    line [INFO: Checking file <path>] and returns [True] exactly when an
    object of the file ends with a diagnostic. *)
Theorem check_docstrings_reports :
  forall fpath module,
    exists out,
      check_docstrings fpath module
      = Ok (negb (is_empty (file_diagnostics fpath module)),
            (py "INFO: Checking file " ++ fpath ++ [nl]) ++ out).
Proof.
  intros fpath module. unfold check_docstrings, file_diagnostics.
  destruct (function_definitions_fresh fpath module) as [nodes ->].
  destruct (run_all_fresh fpath nodes) as (vs & out & -> & H).
  cbn [bind fst snd]. rewrite H. exists out. unfold print.
  rewrite <- (app_assoc (py "INFO: Checking file ") fpath [nl]). reflexivity.
Qed.

Section Driver.

Lemma file_output_eq fname module b out :
  check_docstrings fname module = Ok (b, out) -> file_output (fname, module) = out.
Proof. intros H. unfold file_output. simpl. now rewrite H. Qed.

Lemma main_files_out fs : forall errors out,
  main_files fs errors out
  = Ok (errors + length (filter has_diagnostics fs),
        out ++ flat_map file_output fs).
Proof.
  induction fs as [|[fname module] fs IH]; intros errors out; simpl.
  - now rewrite Nat.add_0_r, app_nil_r.
  - destruct (check_docstrings_spec fname module) as [o E].
    rewrite (file_output_eq _ _ _ _ E), E. cbn [bind fst snd]. rewrite IH.
    unfold has_diagnostics at 2. cbn [fst snd].
    destruct (negb (is_empty (file_diagnostics fname module))); simpl;
      rewrite <- app_assoc; do 2 f_equal; lia.
Qed.

Lemma main_paths_out ps : forall errors out,
  main_paths ps errors out
  = Ok (errors + length (filter has_diagnostics (files_of ps)),
        out ++ flat_map file_output (files_of ps)).
Proof.
  induction ps as [|p ps IH]; intros errors out; simpl.
  - now rewrite Nat.add_0_r, app_nil_r.
  - rewrite main_files_out. cbn [bind fst snd]. rewrite IH.
    rewrite filter_app, length_app, flat_map_app, <- app_assoc.
    do 2 f_equal. lia.
Qed.

Lemma main_out ps :
  main ps = Ok ((if all_clean ps then 0 else 1),
                flat_map file_output (files_of ps)).
Proof.
  unfold main. rewrite main_paths_out. cbn [bind fst snd app Nat.add].
  rewrite all_clean_filter.
  now destruct (length (filter has_diagnostics (files_of ps))).
Qed.

Lemma files_of_as_file fs : files_of (map as_file fs) = fs.
Proof.
  unfold files_of. induction fs as [|[f m] fs IH]; simpl; [reflexivity|].
  now rewrite IH.
Qed.

End Driver.

(** A directory counts for the files found in it: [main] returns the same
    status and writes the same text as when those files are given one by one
    in its place. *)
Theorem main_flattens_directories :
  forall opts_path,
    main opts_path = main (map as_file (files_of opts_path)).
Proof.
  intros ps. rewrite !main_out. unfold all_clean.
  now rewrite files_of_as_file.
Qed.

(** Checking two lists of paths in one invocation: the text written is the
    text of the first list followed by that of the second, and the status is
    1 as soon as one of the two gives 1 (the larger of the two). *)
Theorem main_of_appended_paths :
  forall ps1 ps2,
    exists s1 o1 s2 o2,
      main ps1 = Ok (s1, o1) /\ main ps2 = Ok (s2, o2) /\
      main (ps1 ++ ps2) = Ok (Nat.max s1 s2, o1 ++ o2).
Proof.
  intros ps1 ps2. rewrite !main_out. do 4 eexists.
  split; [reflexivity|]. split; [reflexivity|].
  unfold all_clean, files_of. rewrite flat_map_app, forallb_app, flat_map_app.
  destruct (forallb _ (flat_map paths_of ps1)),
           (forallb _ (flat_map paths_of ps2)); reflexivity.
Qed.
